(** * Tenxten: fixed-depth minimax with a transposition table

    A shallow embedding of [Tenxten.evaluate_position],
    [Tenxten.recursive_search] and [Tenxten.search] (strategies.py) and of
    [timing_decorator] (decorators.py).

    The engine is stateful: it owns a counter and a dictionary, it receives
    references to mutable game objects of the rules library, and it prints.
    Every method is therefore a computation over an explicit [State]; game
    objects live in an object store and are named by references, so that
    [game.copy().push(move)] and its effect on the caller's object can be
    told apart. *)

From Stdlib Require Import ZArith Ascii String List Lia.
From stdpp Require Import base option list gmap strings.

Local Open Scope Z_scope.

(** ** Data of the rules library *)

(** The two player identities a piece or a turn can have. *)
Inductive Player := White | Black.

#[global] Instance Player_eq_dec : EqDecision Player.
Proof. solve_decision. Defined.

Definition opponent (p : Player) : Player :=
  match p with White => Black | Black => White end.

(** A piece, as far as the engine reads it: [piece.player], [piece.king]. *)
Record Piece := mkPiece { player : Player; king : bool }.

(** What the engine consumes from [draughts] and [cityhash].  [Game] is the
    value a game object holds at one moment; the methods the engine calls
    are given by what they read from (or, for [push], do to) that value. *)
Class Collaborators := {
  Game : Type;
  Move : Type;
  Captures : Type;
  (** [game.get_fen()] *)
  get_fen : Game -> string;
  (** [game.legal_moves()], a pair; the engine only uses component [0] *)
  legal_moves : Game -> list Move * list Captures;
  (** the value of a game object after [game.push(move)] *)
  push : Game -> Move -> Game;
  (** [game.has_player_won(player_color)] *)
  has_player_won : Game -> Player -> bool;
  (** [game.board.searcher.position_pieces]: field number to piece *)
  position_pieces : Game -> gmap Z Piece;
  (** [game.board.player_turn] *)
  player_turn : Game -> Player;
  (** [cityhash.CityHash64] *)
  CityHash64 : string -> Z
}.

(** ** Python values the engine handles *)

(** A raised exception, by the name of its class. *)
Inductive exception := Exc (class_name : string).

Definition ValueError : exception := Exc "ValueError".
Definition IndexError : exception := Exc "IndexError".

Definition class_of (e : exception) : string :=
  match e with Exc c => c end.

(** A reference to a game object: its index in the object store. *)
Definition ref := nat.

Section Engine.
Context `{Lib : Collaborators}.

(** [PlayResult(draughts.Move(board_move=best_move), None, {})] *)
Record PlayResult := mkPlayResult {
  move : Move;
  ponder : option Move;
  info : list (string * string)
}.

(** One printed line. The elapsed time of the timing line is wall-clock
    time and is not part of the model. *)
Inductive Output :=
| BestMoveLine (best_move : Move) (score : Z) (positions : Z)
| TableSizeLine (stored : nat)
| TimingLine.

(** ** State *)

Record State := mkState {
  counter : Z;                       (* self.counter *)
  transposition_table : gmap Z Z;    (* self.transposition_table *)
  objects : list Game;               (* the game objects, by reference *)
  stdout : list Output               (* what has been printed so far *)
}.

Definition with_counter (c : Z) (s : State) : State :=
  mkState c (transposition_table s) (objects s) (stdout s).
Definition with_table (t : gmap Z Z) (s : State) : State :=
  mkState (counter s) t (objects s) (stdout s).
Definition with_objects (o : list Game) (s : State) : State :=
  mkState (counter s) (transposition_table s) o (stdout s).
Definition with_stdout (out : list Output) (s : State) : State :=
  mkState (counter s) (transposition_table s) (objects s) out.

(** ** Computations

    A call returns a value, raises, exhausts the recursion fuel of the
    model, or follows a reference to no object.  The last cannot happen in
    Python, where a reference keeps its object alive; statements about
    calls take a live reference. *)
Inductive Outcome (A : Type) :=
| Returns (a : A) (s : State)
| Raises (e : exception) (s : State)
| OutOfFuel
| NoObject.
Arguments Returns {A} a s.
Arguments Raises {A} e s.
Arguments OutOfFuel {A}.
Arguments NoObject {A}.

Definition M (A : Type) : Type := State -> Outcome A.

Definition ret {A} (a : A) : M A := fun s => Returns a s.

Definition bind {A B} (k : A -> M B) (m : M A) : M B :=
  fun s =>
    match m s with
    | Returns a s' => k a s'
    | Raises e s' => Raises e s'
    | OutOfFuel => OutOfFuel
    | NoObject => NoObject
    end.

Definition raise {A} (e : exception) : M A := fun s => Raises e s.

(** [x ← m; k] runs [m], then [k] on its value and final state; a raise
    (or a stuck call) in [m] ends the whole computation. *)
#[global] Instance M_ret : MRet M := @ret.
#[global] Instance M_bind : MBind M := @bind.

(** *** The engine's fields *)

Definition get_counter : M Z := fun s => Returns (counter s) s.
Definition set_counter (c : Z) : M unit := fun s => Returns tt (with_counter c s).
Definition get_table : M (gmap Z Z) := fun s => Returns (transposition_table s) s.
(** [self.transposition_table = t] *)
Definition set_table (t : gmap Z Z) : M unit := fun s => Returns tt (with_table t s).
(** [self.transposition_table[key] = score] *)
Definition table_store (key score : Z) : M unit :=
  fun s => Returns tt (with_table (<[key := score]> (transposition_table s)) s).
Definition print (line : Output) : M unit :=
  fun s => Returns tt (with_stdout (stdout s ++ [line]) s).

(** *** Game objects *)

Definition read {A} (f : Game -> A) (game : ref) : M A :=
  fun s =>
    match objects s !! game with
    | Some v => Returns (f v) s
    | None => NoObject
    end.

(** [game.copy()]: a new object holding the same value, which shares
    nothing with the object it was copied from. *)
Definition game_copy (game : ref) : M ref :=
  fun s =>
    match objects s !! game with
    | Some v => Returns (length (objects s)) (with_objects (objects s ++ [v]) s)
    | None => NoObject
    end.

(** [game.push(move)]: plays the move on the object itself and returns it. *)
Definition game_push (game : ref) (m : Move) : M ref :=
  fun s =>
    match objects s !! game with
    | Some v => Returns game (with_objects (<[game := push v m]> (objects s)) s)
    | None => NoObject
    end.

(** *** Built-ins *)

(** [max(l)] keeps the element it holds unless the next one is greater,
    [min(l)] unless the next one is less; [ValueError] on []. *)
Definition keep_greater (best y : Z) : Z := if best <? y then y else best.
Definition keep_less (best y : Z) : Z := if y <? best then y else best.

Definition py_max (l : list Z) : M Z :=
  match l with
  | [] => raise ValueError
  | x :: rest => ret (foldl keep_greater x rest)
  end.

Definition py_min (l : list Z) : M Z :=
  match l with
  | [] => raise ValueError
  | x :: rest => ret (foldl keep_less x rest)
  end.

Fixpoint first_index (x : Z) (l : list Z) : option nat :=
  match l with
  | [] => None
  | y :: rest => if decide (y = x) then Some O else S <$> first_index x rest
  end.

(** [l.index(x)]: [ValueError] when [x] is not in [l]. *)
Definition py_index (l : list Z) (x : Z) : M nat :=
  match first_index x l with
  | Some i => ret i
  | None => raise ValueError
  end.

(** [l[i]] for an index that is not negative. *)
Definition py_getitem {A} (l : list A) (i : nat) : M A :=
  match l !! i with
  | Some a => ret a
  | None => raise IndexError
  end.

(** [for move in moves: ...; scores.append(score)] *)
Fixpoint for_moves (body : Move -> M Z) (moves : list Move) (scores : list Z)
  : M (list Z) :=
  match moves with
  | [] => ret scores
  | m :: rest => score ← body m; for_moves body rest (scores ++ [score])
  end.

(** ** decorators.py *)

Definition timing_decorator {A} (func : M A) : M A :=
  result ← func;
  print TimingLine;;
  ret result.

(** ** class Tenxten *)

(** [__init__], after the set-up of the base class: the two fields. *)
Definition init : M unit :=
  set_counter 0;;
  set_table ∅.

Definition evaluation_dict (is_king : bool) : Z := if is_king then 4 else 1.

Definition evaluate_position (position : gmap Z Piece) (player_color : Player)
  : M Z :=
  let score :=
    foldl (fun score item =>
             let piece := item.2 in
             let temp := if decide (player piece = player_color) then 1 else -1 in
             score + evaluation_dict (king piece) * temp)
          0 (map_to_list position) in
  c ← get_counter;
  set_counter (c + 1);;
  ret score.

Fixpoint recursive_search (fuel : nat) (game : ref) (depth : Z)
    (player_color : Player) : M Z :=
  match fuel with
  | O => fun _ => OutOfFuel
  | S fuel' =>
    fen ← read get_fen game;
    let key := CityHash64 fen in
    table ← get_table;
    match table !! key with
    | Some cached => ret cached
    | None =>
      if decide (depth = 0) then
        position ← read position_pieces game;
        score ← evaluate_position position player_color;
        table_store key score;;
        ret score
      else
        moves ← read (fun v => (legal_moves v).1) game;
        match moves with
        | [] =>
          won ← read (fun v => has_player_won v player_color) game;
          if (won : bool) then ret 100 else ret (-100)
        | _ :: _ =>
          scores ← for_moves
                      (fun m =>
                         copied ← game_copy game;
                         new_game ← game_push copied m;
                         recursive_search fuel' new_game (depth - 1) player_color)
                      moves [];
          turn ← read player_turn game;
          if decide (turn = player_color) then
            max_score ← py_max scores;
            table_store key max_score;;
            ret max_score
          else
            min_score ← py_min scores;
            table_store key min_score;;
            ret min_score
        end
    end
  end.

Definition search (fuel : nat) (game : ref) : M PlayResult :=
  timing_decorator (
    player_color ← read player_turn game;
    moves ← read (fun v => (legal_moves v).1) game;
    score_list ← for_moves
                    (fun m =>
                       copied ← game_copy game;
                       new_game ← game_push copied m;
                       recursive_search fuel new_game 3 player_color)
                    moves [];
    best ← py_max score_list;
    best_move_index ← py_index score_list best;
    best_move ← py_getitem moves best_move_index;
    shown ← py_max score_list;
    positions ← get_counter;
    print (BestMoveLine best_move shown positions);;
    table ← get_table;
    print (TableSizeLine (size table));;
    set_counter 0;;
    set_table ∅;;
    ret (mkPlayResult best_move None [])).

End Engine.

Arguments Returns {Lib A} a s.
Arguments Raises {Lib A} e s.
Arguments OutOfFuel {Lib A}.
Arguments NoObject {Lib A}.

(** ** Vocabulary of the statements *)

Section Vocabulary.
Context `{Lib : Collaborators}.

(** [r] is a greatest (least) element of [l]. *)
Definition is_max (r : Z) (l : list Z) : Prop := r ∈ l ∧ ∀ x, x ∈ l → x <= r.
Definition is_min (r : Z) (l : list Z) : Prop := r ∈ l ∧ ∀ x, x ∈ l → r <= x.

(** The engine between two searches: nothing counted, nothing stored. *)
Definition fresh_engine (s : State) : Prop :=
  counter s = 0 ∧ transposition_table s = ∅.

(** A call only created objects: every object of [s] is in [s'], under the
    same reference and with the same value. *)
Definition objects_kept (s s' : State) : Prop :=
  objects s `prefix_of` objects s'.

(** The key under which the engine files a game value. *)
Definition key_of (v : Game) : Z := CityHash64 (get_fen v).

(** The state in which a child of [game] is searched: a new object, which
    holds the value of [game] after [move], has been added to the store. *)
Definition with_successor (v : Game) (m : Move) (s : State) : State :=
  with_objects (objects s ++ [push v m]) s.

(** [child_scores fuel game depth pc moves s scores s']: from state [s],
    the successors of [game] by [moves] are searched one after the other, in
    the order of [moves], each with [recursive_search] at depth [depth] and
    in the state its predecessor left; the calls return [scores], in the
    same order, and leave [s']. *)
Inductive child_scores (fuel : nat) (game : ref) (depth : Z) (pc : Player)
  : list Move -> State -> list Z -> State -> Prop :=
| child_scores_nil s : child_scores fuel game depth pc [] s [] s
| child_scores_cons m rest s v score s1 scores s2 :
    objects s !! game = Some v ->
    recursive_search fuel (length (objects s)) depth pc (with_successor v m s)
      = Returns score s1 ->
    child_scores fuel game depth pc rest s1 scores s2 ->
    child_scores fuel game depth pc (m :: rest) s (score :: scores) s2.

(** Material on the board. *)
Definition pieces (position : gmap Z Piece) : list Piece :=
  (map_to_list position).*2.

Definition count_pieces (owner : Player) (is_king : bool)
    (position : gmap Z Piece) : Z :=
  Z.of_nat (length (filter (fun p => player p = owner ∧ king p = is_king)
                           (pieces position))).

(** What one cell adds to the score seen by [pc]. *)
Definition cell_value (pc : Player) (cell : option Piece) : Z :=
  match cell with
  | None => 0
  | Some p =>
    match decide (player p = pc), king p with
    | left _, true => 4
    | left _, false => 1
    | right _, true => -4
    | right _, false => -1
    end
  end.

Definition sum_list (l : list Z) : Z := foldr Z.add 0 l.

(** The score the specification gives a position seen by [pc]: four for
    each king and one for each other piece of [pc], as much off for each
    piece of the opponent. *)
Definition material (pc : Player) (position : gmap Z Piece) : Z :=
  4 * count_pieces pc true position + 1 * count_pieces pc false position
  - 4 * count_pieces (opponent pc) true position
  - 1 * count_pieces (opponent pc) false position.

(** The state [evaluate_position] leaves: one more position counted. *)
Definition counted (s : State) : State := with_counter (counter s + 1) s.

(** The state [search] leaves when its loop ended in [s] and it chose
    [best_move] with score [best]. *)
Definition after_search (best_move : Move) (best : Z) (s : State) : State :=
  mkState 0 ∅ (objects s)
    (stdout s ++ [BestMoveLine best_move best (counter s);
                  TableSizeLine (size (transposition_table s));
                  TimingLine]).

End Vocabulary.

(** ** The example strategies

    [RandomMove], [FirstMoveLidraughts], [FirstMoveHub] and [FirstMovePDN]
    choose among [board.legal_moves()[0]] without searching.  As for
    [Tenxten], a [PlayResult] names the [draughts.Move] it holds by the
    board move that [draughts.Move] was built from. *)

Definition NotImplementedError : exception := Exc "NotImplementedError".

(** A [draughts.Move] as the strategies build it: the arguments of its
    constructor ([None] for an argument that is left out). *)
Record MoveObject `{Lib : Collaborators} := mkMoveObject {
  board_move : Move;
  possible_moves : option (list Move);
  possible_captures : option (list Captures)
}.
Arguments mkMoveObject {Lib} board_move possible_moves possible_captures.

(** The notations a [draughts.Move] offers as attributes. *)
Class MoveNotation `{Lib : Collaborators} := {
  li_one_move : MoveObject -> string;
  hub_move : MoveObject -> string;
  pdn_move : MoveObject -> string
}.

(** [a < b] on [str]: the first character that differs decides, a proper
    prefix is less. *)
Definition str_lt (a b : string) : bool := String.ltb a b.

Section Builtins.
Context `{Lib : Collaborators}.

(** [l.sort(key=key)] is a stable sort that compares keys with [<] only.
    [insert_by_key] puts [x] in front of a sorted list, behind the elements
    whose key is less than its own. *)
Fixpoint insert_by_key {A} (key : A -> string) (x : A) (l : list A) : list A :=
  match l with
  | [] => [x]
  | y :: rest =>
    if str_lt (key y) (key x) then y :: insert_by_key key x rest
    else x :: y :: rest
  end.

Definition py_sort_by_key {A} (key : A -> string) (l : list A) : list A :=
  foldr (insert_by_key key) [] l.

(** [random.choice(seq)], where [draw] is what the generator answers to
    [_randbelow(len(seq))]; [IndexError] on an empty sequence. *)
Definition random_choice {A} (draw : nat) (seq : list A) : M A :=
  match seq with
  | [] => raise IndexError
  | _ :: _ => py_getitem seq draw
  end.

End Builtins.

Module MinimalEngine.
Section Methods.
Context `{Lib : Collaborators}.

(** [search]: to be implemented by the strategy. *)
Definition search (board : ref) : M PlayResult := raise NotImplementedError.

(** [notify]: nothing happens. *)
Definition notify (method_name : string) : M unit := ret tt.

End Methods.
End MinimalEngine.

Module RandomMove.
Section Methods.
Context `{Lib : Collaborators}.

Definition search (draw : nat) (board : ref) : M PlayResult :=
  moves ← read (fun v => (legal_moves v).1) board;
  chosen ← random_choice draw moves;
  ret (mkPlayResult chosen None []).

End Methods.
End RandomMove.

Module FirstMoveLidraughts.
Section Methods.
Context `{Notation : MoveNotation}.

Definition search (board : ref) : M PlayResult :=
  moves ← read (fun v => (legal_moves v).1) board;
  let moves := (fun m => mkMoveObject m None None) <$> moves in
  let moves := py_sort_by_key li_one_move moves in
  first ← py_getitem moves 0;
  ret (mkPlayResult (board_move first) None []).

End Methods.
End FirstMoveLidraughts.

Module FirstMoveHub.
Section Methods.
Context `{Notation : MoveNotation}.

Definition search (board : ref) : M PlayResult :=
  legal ← read legal_moves board;
  let '(moves, captures) := legal in
  let hub_moves :=
    (fun m => mkMoveObject m (Some moves) (Some captures)) <$> moves in
  let hub_moves := py_sort_by_key hub_move hub_moves in
  first ← py_getitem hub_moves 0;
  ret (mkPlayResult (board_move first) None []).

End Methods.
End FirstMoveHub.

Module FirstMovePDN.
Section Methods.
Context `{Notation : MoveNotation}.

Definition search (board : ref) : M PlayResult :=
  legal ← read legal_moves board;
  let '(moves, captures) := legal in
  let pdn_moves :=
    (fun m => mkMoveObject m (Some moves) (Some captures)) <$> moves in
  let pdn_moves := py_sort_by_key pdn_move pdn_moves in
  first ← py_getitem pdn_moves 0;
  ret (mkPlayResult (board_move first) None []).

End Methods.
End FirstMovePDN.

(** ** More vocabulary *)

Section MoreVocabulary.
Context `{Lib : Collaborators}.

(** [computes m s Q]: from [s], the computation [m] neither raises nor
    follows a dead reference, and when it returns, [Q] holds of its value
    and final state. *)
Definition computes {A} (m : M A) (s : State) (Q : A -> State -> Prop) : Prop :=
  match m s with
  | Returns a s' => Q a s'
  | OutOfFuel => True
  | Raises _ _ | NoObject => False
  end.

(** What a search may do to the engine between [s] and [s']: it creates
    objects, it prints nothing, it counts and stores but takes nothing back,
    and it stores at least one new key for each position it counts. *)
Record search_effect (s s' : State) : Prop := mkSearchEffect {
  effect_objects : objects_kept s s';
  effect_stdout : stdout s' = stdout s;
  effect_counter : counter s <= counter s';
  effect_keys : ∀ key, is_Some (transposition_table s !! key) →
                       is_Some (transposition_table s' !! key);
  effect_sizes : counter s' - counter s
                 <= Z.of_nat (size (transposition_table s'))
                    - Z.of_nat (size (transposition_table s))
}.

(** [m] has the least key of [l], and is the first of [l] to have it: it
    stands at index [i], no key is less than its own, and every key before
    index [i] is greater. *)
Definition first_least {A} (key : A -> string) (l : list A) (i : nat) (m : A)
  : Prop :=
  l !! i = Some m
  ∧ (∀ j x, l !! j = Some x → str_lt (key x) (key m) = false)
  ∧ (∀ j x, (j < i)%nat → l !! j = Some x → str_lt (key m) (key x) = true).

(** Two states that differ in the diagnostics only: the counter and the
    output. *)
Definition same_position_data (s1 s2 : State) : Prop :=
  transposition_table s1 = transposition_table s2 ∧ objects s1 = objects s2.

(** Two outcomes that agree up to the diagnostics. *)
Definition same_outcome {A} (o1 o2 : Outcome A) : Prop :=
  match o1, o2 with
  | Returns a1 s1, Returns a2 s2 => a1 = a2 ∧ same_position_data s1 s2
  | Raises e1 s1, Raises e2 s2 => e1 = e2 ∧ same_position_data s1 s2
  | OutOfFuel, OutOfFuel => True
  | NoObject, NoObject => True
  | _, _ => False
  end.

(** [within n v v']: the game value [v'] is [v] after at most [n] moves,
    each of them among the [legal_moves()[0]] of the value it is played
    on. *)
Inductive within : nat -> Game -> Game -> Prop :=
| within_here n v : within n v v
| within_move n v m v' :
    m ∈ (legal_moves v).1 -> within n (push v m) v' -> within (S n) v v'.

(** The objects a call created between [s] and [s'] all satisfy [ok], and
    the objects of [s] are as they were. *)
Definition created (ok : Game -> Prop) (s s' : State) : Prop :=
  ∃ new, objects s' = objects s ++ new ∧ Forall ok new.

(** Every score stored in the table satisfies [P]. *)
Definition stored_scores (P : Z -> Prop) (s : State) : Prop :=
  ∀ key score, transposition_table s !! key = Some score → P score.

End MoreVocabulary.

(** ** A small instance of the collaborators

    A pile of counters: a move takes one or two of them and passes the
    turn; whoever faces the empty pile has lost.  Fields [0 .. n-1] of the
    board carry the counters that are left. *)
Module Pile.

Record pile := mkPile { remaining : nat; to_move : Player }.

Definition pile_moves (g : pile) : list nat * list unit :=
  match remaining g with
  | O => ([], [])
  | 1%nat => ([1%nat], [])
  | _ => ([1%nat; 2%nat], [])
  end.

Definition pile_push (g : pile) (take : nat) : pile :=
  mkPile (remaining g - take) (opponent (to_move g)).

Definition pile_won (g : pile) (p : Player) : bool :=
  Nat.eqb (remaining g) 0 && bool_decide (to_move g ≠ p).

Definition pile_fen (g : pile) : string :=
  String (match to_move g with White => "W" | Black => "B" end)
         (string_of_list_ascii (repeat "o"%char (remaining g))).

Definition pile_piece (i : nat) : Piece :=
  mkPiece (if Nat.even i then White else Black) (Nat.eqb (i mod 3) 0).

Definition pile_position (g : pile) : gmap Z Piece :=
  list_to_map (map (fun i => (Z.of_nat i, pile_piece i)) (seq 0 (remaining g))).

(** A polynomial hash of the characters; it tells the notations of two
    different piles apart. *)
Fixpoint pile_hash (s : string) : Z :=
  match s with
  | EmptyString => 7
  | String c rest =>
    31 * pile_hash rest
    + (if Ascii.eqb c "W" then 1 else if Ascii.eqb c "B" then 2 else 3)
  end.

#[local] Instance pile_game : Collaborators := {|
  Game := pile;
  Move := nat;
  Captures := unit;
  get_fen := pile_fen;
  legal_moves := pile_moves;
  push := pile_push;
  has_player_won := pile_won;
  position_pieces := pile_position;
  player_turn := to_move;
  CityHash64 := pile_hash
|}.

(** The notations of a move: how many counters it takes, in words for
    lidraughts, as strokes for hub and PDN. *)
Definition pile_words (m : MoveObject) : string :=
  match board_move m with 1%nat => "single" | 2%nat => "double" | _ => "more" end.

Definition pile_strokes (m : MoveObject) : string :=
  string_of_list_ascii (repeat "|"%char (board_move m)).

#[local] Instance pile_notation : MoveNotation := {|
  li_one_move := pile_words;
  hub_move := pile_strokes;
  pdn_move := pile_strokes
|}.

(** The value of a game object: [n] counters left, [turn] to move. *)
Definition pile_of (n : nat) (turn : Player) : Game := mkPile n turn.

(** A fresh engine holding one game object, reference [0]. *)
Definition start (g : Game) : State := mkState 0 ∅ [g] [].

(** The same, in the middle of a search that has already filed the score 7
    under the key of the game. *)
Definition seen_before (g : Game) : State :=
  mkState 0 {[ CityHash64 (get_fen g) := 7 ]} [g] [].

End Pile.

(** * Properties *)

Section Properties.
Context `{Lib : Collaborators}.
Implicit Types (game : ref) (depth : Z) (fuel : nat) (v : Game).

(** ** Running computations *)

Lemma run_bind {A B} (m : M A) (k : A -> M B) (s : State) :
  (m ≫= k) s =
  match m s with
  | Returns a s' => k a s'
  | Raises e s' => Raises e s'
  | OutOfFuel => OutOfFuel
  | NoObject => NoObject
  end.
Proof. reflexivity. Qed.

(** Runs the reads and writes of the engine's own fields. *)
Ltac run_fields :=
  unfold mbind, M_bind, bind, mret, M_ret, ret, get_counter, set_counter,
    get_table, set_table, table_store, print,
    with_counter, with_table, with_stdout;
  cbn [counter transposition_table objects stdout].

Lemma run_read {A} (f : Game -> A) game v (s : State) :
  objects s !! game = Some v -> read f game s = Returns (f v) s.
Proof. intros H. unfold read. rewrite H. reflexivity. Qed.

(** [game.copy().push(move)] adds the successor to the store and returns
    its reference; no other object changes. *)
Lemma run_copy_push {B} game v (m : Move) (k : ref -> M B) (s : State) :
  objects s !! game = Some v ->
  (copied ← game_copy game; new_game ← game_push copied m; k new_game) s
  = k (length (objects s)) (with_successor v m s).
Proof.
  intros H. rewrite run_bind. unfold game_copy at 1. rewrite H.
  rewrite run_bind. unfold game_push. cbn [objects with_objects].
  rewrite lookup_app_r by lia. rewrite Nat.sub_diag. cbn [lookup list_lookup].
  unfold with_successor, with_objects. cbn [objects counter transposition_table stdout].
  replace (length (objects s)) with (length (objects s) + 0)%nat at 2 by lia.
  rewrite insert_app_r. reflexivity.
Qed.

(** ** Built-ins *)

Lemma foldl_keep_greater (rest : list Z) : ∀ x,
  x <= foldl keep_greater x rest
  ∧ (∀ z, z ∈ rest → z <= foldl keep_greater x rest)
  ∧ (foldl keep_greater x rest = x ∨ foldl keep_greater x rest ∈ rest).
Proof.
  induction rest as [|y rest IH]; intros x; simpl.
  - split; [lia|]. split; [|by left]. intros z Hz. by apply elem_of_nil in Hz.
  - destruct (IH (keep_greater x y)) as (Hge & Hall & Hfrom).
    assert (x <= keep_greater x y ∧ y <= keep_greater x y) as [Hx Hy].
    { unfold keep_greater. destruct (Z.ltb_spec x y); lia. }
    split; [lia|]. split.
    + intros z Hz. apply elem_of_cons in Hz as [->|Hz]; [lia|by apply Hall].
    + destruct Hfrom as [Heq|Hin]; [|right; by apply list_elem_of_further].
      rewrite Heq. unfold keep_greater. destruct (x <? y).
      * right. apply list_elem_of_here.
      * by left.
Qed.

Lemma foldl_keep_less (rest : list Z) : ∀ x,
  foldl keep_less x rest <= x
  ∧ (∀ z, z ∈ rest → foldl keep_less x rest <= z)
  ∧ (foldl keep_less x rest = x ∨ foldl keep_less x rest ∈ rest).
Proof.
  induction rest as [|y rest IH]; intros x; simpl.
  - split; [lia|]. split; [|by left]. intros z Hz. by apply elem_of_nil in Hz.
  - destruct (IH (keep_less x y)) as (Hle & Hall & Hfrom).
    assert (keep_less x y <= x ∧ keep_less x y <= y) as [Hx Hy].
    { unfold keep_less. destruct (Z.ltb_spec y x); lia. }
    split; [lia|]. split.
    + intros z Hz. apply elem_of_cons in Hz as [->|Hz]; [lia|by apply Hall].
    + destruct Hfrom as [Heq|Hin]; [|right; by apply list_elem_of_further].
      rewrite Heq. unfold keep_less. destruct (y <? x).
      * right. apply list_elem_of_here.
      * by left.
Qed.

Lemma foldl_max_is_max (x : Z) (rest : list Z) :
  is_max (foldl keep_greater x rest) (x :: rest).
Proof.
  destruct (foldl_keep_greater rest x) as (Hge & Hall & Hfrom). split.
  - destruct Hfrom as [->|Hin]; [apply list_elem_of_here|by apply list_elem_of_further].
  - intros z Hz. apply elem_of_cons in Hz as [->|Hz]; [done|by apply Hall].
Qed.

Lemma foldl_min_is_min (x : Z) (rest : list Z) :
  is_min (foldl keep_less x rest) (x :: rest).
Proof.
  destruct (foldl_keep_less rest x) as (Hle & Hall & Hfrom). split.
  - destruct Hfrom as [->|Hin]; [apply list_elem_of_here|by apply list_elem_of_further].
  - intros z Hz. apply elem_of_cons in Hz as [->|Hz]; [done|by apply Hall].
Qed.

Lemma py_max_returns (l : list Z) (s : State) :
  l ≠ [] -> ∃ r, py_max l s = Returns r s ∧ is_max r l.
Proof.
  destruct l as [|x rest]; [done|]. intros _.
  eexists. split; [reflexivity|]. apply foldl_max_is_max.
Qed.

Lemma py_min_returns (l : list Z) (s : State) :
  l ≠ [] -> ∃ r, py_min l s = Returns r s ∧ is_min r l.
Proof.
  destruct l as [|x rest]; [done|]. intros _.
  eexists. split; [reflexivity|]. apply foldl_min_is_min.
Qed.

(** [l.index(x)] finds the first position of an element of the list. *)
Lemma first_index_elem (x : Z) (l : list Z) :
  x ∈ l ->
  ∃ i, first_index x l = Some i ∧ l !! i = Some x ∧
       ∀ j y, (j < i)%nat -> l !! j = Some y -> y ≠ x.
Proof.
  induction l as [|y l IH]; intros Hin; [by apply elem_of_nil in Hin|].
  simpl. destruct (decide (y = x)) as [->|Hne].
  - exists O. split; [reflexivity|]. split; [reflexivity|]. intros j z Hj; lia.
  - apply elem_of_cons in Hin as [->|Hin]; [done|].
    destruct (IH Hin) as (i & Hi & Hl & Hfirst). exists (S i).
    rewrite Hi. split; [reflexivity|]. split; [exact Hl|].
    intros [|j] z Hj Hz; simpl in Hz; [congruence|].
    apply (Hfirst j); [lia|done].
Qed.

(** ** The loop over the moves *)

Lemma for_moves_child_scores fuel game depth pc moves (s s' : State) scores :
  child_scores fuel game depth pc moves s scores s' ->
  ∀ acc,
    for_moves (fun m => copied ← game_copy game; new_game ← game_push copied m;
                        recursive_search fuel new_game depth pc) moves acc s
    = Returns (acc ++ scores) s'.
Proof.
  induction 1 as [s|m rest s v score s1 scores s2 Hv Hrun _ IH]; intros acc; simpl.
  - by rewrite app_nil_r.
  - rewrite run_bind, (run_copy_push _ v) by done. rewrite Hrun.
    rewrite IH, <- app_assoc. reflexivity.
Qed.

Lemma child_scores_length fuel game depth pc moves (s s' : State) scores :
  child_scores fuel game depth pc moves s scores s' ->
  length scores = length moves.
Proof. induction 1; simpl; congruence. Qed.

Lemma objects_kept_refl (s : State) : objects_kept s s.
Proof. unfold objects_kept. reflexivity. Qed.

Lemma objects_kept_trans (s1 s2 s3 : State) :
  objects_kept s1 s2 -> objects_kept s2 s3 -> objects_kept s1 s3.
Proof. unfold objects_kept. intros H12 H23. by etrans. Qed.

Lemma objects_kept_lookup (s s' : State) game v :
  objects_kept s s' -> objects s !! game = Some v -> objects s' !! game = Some v.
Proof. intros Hk Hv. by eapply prefix_lookup_Some. Qed.

Lemma objects_kept_successor (s : State) v (m : Move) :
  objects_kept s (with_successor v m s).
Proof. apply prefix_app_r. reflexivity. Qed.

(** When every search at this depth returns and keeps the objects, so
    does the loop over the successors. *)
Lemma child_scores_exist fuel depth pc
  (Hrec : ∀ game' v' (s1 : State), objects s1 !! game' = Some v' ->
     ∃ score s2, recursive_search fuel game' depth pc s1 = Returns score s2
                 ∧ objects_kept s1 s2 ∧ stdout s2 = stdout s1) :
  ∀ moves game v (s : State),
    objects s !! game = Some v ->
    ∃ scores s', child_scores fuel game depth pc moves s scores s'
                 ∧ objects_kept s s' ∧ stdout s' = stdout s.
Proof.
  induction moves as [|m rest IH]; intros game v s Hv.
  - exists [], s. split; [constructor|]. split; [apply objects_kept_refl|reflexivity].
  - destruct (Hrec (length (objects s)) (push v m) (with_successor v m s))
      as (score & s1 & Hrun & Hk1 & Hout1).
    { unfold with_successor. cbn. apply list_lookup_middle. reflexivity. }
    assert (Hk : objects_kept s s1).
    { eapply objects_kept_trans; [apply (objects_kept_successor s v m)|exact Hk1]. }
    destruct (IH game v s1) as (scores & s2 & Hcs & Hk2 & Hout2).
    { by eapply objects_kept_lookup. }
    exists (score :: scores), s2. split; [by econstructor|].
    split; [by eapply objects_kept_trans|]. rewrite Hout2, Hout1. reflexivity.
Qed.

(** ** One call of [recursive_search] *)

Lemma recursive_search_hit fuel game depth pc v cached (s : State) :
  objects s !! game = Some v ->
  transposition_table s !! key_of v = Some cached ->
  recursive_search (S fuel) game depth pc s = Returns cached s.
Proof.
  intros Hv Hhit. simpl. rewrite run_bind, (run_read _ _ v) by done.
  rewrite run_bind. unfold get_table. fold (key_of v). rewrite Hhit. reflexivity.
Qed.

Lemma recursive_search_leaf fuel game pc v (s : State) :
  objects s !! game = Some v ->
  transposition_table s !! key_of v = None ->
  recursive_search (S fuel) game 0 pc s
  = (score ← evaluate_position (position_pieces v) pc;
     table_store (key_of v) score;; ret score) s.
Proof.
  intros Hv Hmiss. simpl. rewrite run_bind, (run_read _ _ v) by done.
  rewrite run_bind. unfold get_table at 1. fold (key_of v). rewrite Hmiss.
  rewrite run_bind, (run_read _ _ v) by done. reflexivity.
Qed.

Lemma recursive_search_no_moves fuel game depth pc v (s : State) :
  objects s !! game = Some v ->
  transposition_table s !! key_of v = None ->
  depth ≠ 0 ->
  (legal_moves v).1 = [] ->
  recursive_search (S fuel) game depth pc s
  = Returns (if has_player_won v pc then 100 else -100) s.
Proof.
  intros Hv Hmiss Hd Hmoves. simpl. rewrite run_bind, (run_read _ _ v) by done.
  rewrite run_bind. unfold get_table at 1. fold (key_of v). rewrite Hmiss.
  destruct (decide (depth = 0)) as [|_]; [done|].
  rewrite run_bind, (run_read _ _ v) by done. rewrite Hmoves.
  rewrite run_bind, (run_read _ _ v) by done.
  by destruct (has_player_won v pc).
Qed.

Lemma recursive_search_children fuel game depth pc v (s s' : State) scores :
  objects s !! game = Some v ->
  transposition_table s !! key_of v = None ->
  depth ≠ 0 ->
  (legal_moves v).1 ≠ [] ->
  child_scores fuel game (depth - 1) pc (legal_moves v).1 s scores s' ->
  objects_kept s s' ->
  recursive_search (S fuel) game depth pc s
  = (if decide (player_turn v = pc)
     then max_score ← py_max scores; table_store (key_of v) max_score;; ret max_score
     else min_score ← py_min scores; table_store (key_of v) min_score;; ret min_score) s'.
Proof.
  intros Hv Hmiss Hd Hmoves Hcs Hk. simpl.
  rewrite run_bind, (run_read _ _ v) by done.
  rewrite run_bind. unfold get_table at 1. fold (key_of v). rewrite Hmiss.
  destruct (decide (depth = 0)) as [|_]; [done|].
  rewrite run_bind, (run_read _ _ v) by done.
  destruct (legal_moves v).1 as [|m rest] eqn:Hm; [done|].
  rewrite run_bind, (for_moves_child_scores _ _ _ _ _ _ _ _ Hcs). simpl app.
  rewrite run_bind, (run_read _ _ v) by (by eapply objects_kept_lookup).
  reflexivity.
Qed.

(** With fuel above a depth that is not negative, a search returns; it
    keeps every object it was given and prints nothing. *)
Lemma recursive_search_returns fuel : ∀ depth game pc v (s : State),
  0 <= depth < Z.of_nat fuel ->
  objects s !! game = Some v ->
  ∃ score s', recursive_search fuel game depth pc s = Returns score s'
              ∧ objects_kept s s' ∧ stdout s' = stdout s.
Proof.
  induction fuel as [|fuel IH]; intros depth game pc v s Hd Hv; [lia|].
  destruct (transposition_table s !! key_of v) as [cached|] eqn:Htable.
  { exists cached, s. rewrite (recursive_search_hit _ _ _ _ v cached) by done.
    split; [done|]. split; [apply objects_kept_refl|done]. }
  destruct (decide (depth = 0)) as [->|Hnz].
  { rewrite (recursive_search_leaf _ _ _ v) by done.
    eexists _, _. split; [reflexivity|]. split; [unfold objects_kept; simpl; reflexivity|reflexivity]. }
  destruct (legal_moves v).1 as [|m rest] eqn:Hmoves.
  { rewrite (recursive_search_no_moves _ _ _ _ v) by done.
    eexists _, _. split; [reflexivity|]. split; [apply objects_kept_refl|done]. }
  destruct (child_scores_exist fuel (depth - 1) pc) with
    (moves := m :: rest) (game := game) (v := v) (s := s)
    as (scores & s' & Hcs & Hk & Hout); [|done|].
  { intros game' v' s1 Hv'. apply (IH _ _ _ v'); [lia|done]. }
  assert (Hne : scores ≠ []).
  { apply child_scores_length in Hcs. by destruct scores. }
  rewrite (recursive_search_children _ _ _ _ v s s' scores); try done;
    [|by rewrite Hmoves|by rewrite Hmoves].
  destruct (decide (player_turn v = pc)) as [_|_].
  - destruct (py_max_returns scores s' Hne) as (r & Hr & _).
    rewrite run_bind, Hr. eexists _, _. split; [reflexivity|]. by split.
  - destruct (py_min_returns scores s' Hne) as (r & Hr & _).
    rewrite run_bind, Hr. eexists _, _. split; [reflexivity|]. by split.
Qed.

(** ** The evaluation *)

Lemma run_evaluate_position (position : gmap Z Piece) pc (s : State) :
  evaluate_position position pc s
  = Returns (foldl (fun score item =>
                      score + evaluation_dict (king item.2)
                              * (if decide (player item.2 = pc) then 1 else -1))
                   0 (map_to_list position))
            (counted s).
Proof. reflexivity. Qed.

Lemma foldl_score (pc : Player) (items : list (Z * Piece)) : ∀ acc,
  foldl (fun score item =>
           score + evaluation_dict (king item.2)
                   * (if decide (player item.2 = pc) then 1 else -1))
        acc items
  = acc + sum_list ((fun p => cell_value pc (Some p)) <$> items.*2).
Proof.
  induction items as [|[c p] items IH]; intros acc; [simpl; lia|].
  rewrite !fmap_cons. cbn [foldl sum_list foldr snd]. rewrite IH.
  fold (sum_list ((λ p, cell_value pc (Some p)) <$> items.*2)).
  unfold cell_value at 2. unfold evaluation_dict.
  destruct (decide (player p = pc)), (king p); lia.
Qed.

Lemma sum_cell_values_count (pc : Player) (l : list Piece) :
  sum_list ((fun p => cell_value pc (Some p)) <$> l)
  = 4 * Z.of_nat (length (filter (fun p => player p = pc ∧ king p = true) l))
    + 1 * Z.of_nat (length (filter (fun p => player p = pc ∧ king p = false) l))
    - 4 * Z.of_nat (length (filter (fun p => player p = opponent pc ∧ king p = true) l))
    - 1 * Z.of_nat (length (filter (fun p => player p = opponent pc ∧ king p = false) l)).
Proof.
  induction l as [|[owner k] l IH]; [reflexivity|].
  rewrite fmap_cons. cbn [sum_list foldr]. fold (sum_list ((λ p, cell_value pc (Some p)) <$> l)).
  rewrite IH, !filter_cons. unfold cell_value. cbn [player king].
  destruct pc, owner, k; cbn [opponent]; repeat case_decide; simpl length;
    try lia; exfalso; intuition congruence.
Qed.

Lemma sum_cell_values_opponent (p q : Player) (l : list Piece) :
  p ≠ q ->
  sum_list ((fun x => cell_value q (Some x)) <$> l)
  = - sum_list ((fun x => cell_value p (Some x)) <$> l).
Proof.
  intros Hpq. induction l as [|[owner k] l IH]; [reflexivity|].
  rewrite !fmap_cons. cbn [sum_list foldr].
  fold (sum_list ((λ x, cell_value q (Some x)) <$> l)).
  fold (sum_list ((λ x, cell_value p (Some x)) <$> l)).
  rewrite IH. unfold cell_value. cbn [player king].
  destruct p, q, owner, k; repeat case_decide; try lia; congruence.
Qed.

(** Summing over the cells of a board: a cell off the map adds nothing. *)
Lemma sum_cells_insert (pc : Player) (m : gmap Z Piece) (c : Z) (x : Piece)
    (cells : list Z) :
  m !! c = None -> NoDup cells ->
  sum_list ((fun i => cell_value pc (<[c := x]> m !! i)) <$> cells)
  = (if decide (c ∈ cells) then cell_value pc (Some x) else 0)
    + sum_list ((fun i => cell_value pc (m !! i)) <$> cells).
Proof.
  intros Hc. induction 1 as [|i cells Hi Hnd IH].
  - rewrite decide_False by apply not_elem_of_nil. reflexivity.
  - rewrite !fmap_cons. cbn [sum_list foldr].
    fold (sum_list ((λ i, cell_value pc (<[c:=x]> m !! i)) <$> cells)).
    fold (sum_list ((λ i, cell_value pc (m !! i)) <$> cells)).
    rewrite IH. destruct (decide (c = i)) as [->|Hne].
    + rewrite lookup_insert_eq, Hc. rewrite (decide_False (P := i ∈ cells)) by done.
      rewrite decide_True by apply list_elem_of_here.
      change (cell_value pc None) with 0. lia.
    + rewrite lookup_insert_ne by done.
      destruct (decide (c ∈ cells)) as [Hin|Hnin].
      * rewrite decide_True by (by apply list_elem_of_further). lia.
      * rewrite decide_False; [lia|]. intros Hin.
        apply elem_of_cons in Hin as [?|?]; done.
Qed.

Lemma sum_cells_material (pc : Player) (position : gmap Z Piece) :
  ∀ cells : list Z,
    NoDup cells -> (∀ c, is_Some (position !! c) → c ∈ cells) ->
    sum_list ((fun c => cell_value pc (position !! c)) <$> cells)
    = sum_list ((fun p => cell_value pc (Some p)) <$> pieces position).
Proof.
  unfold pieces. induction position as [|c x m Hc IH] using map_ind;
    intros cells Hnd Hcover.
  - rewrite map_to_list_empty. simpl.
    induction cells as [|i cells IHc]; [reflexivity|].
    rewrite fmap_cons. cbn [sum_list foldr]. rewrite lookup_empty. simpl.
    apply IHc; [by inversion Hnd|]. intros i' [? Hi']. by rewrite lookup_empty in Hi'.
  - rewrite sum_cells_insert by done.
    rewrite decide_True by (apply Hcover; rewrite lookup_insert_eq; eauto).
    rewrite IH; [|done|].
    + assert (Hperm : (map_to_list (<[c:=x]> m)).*2 ≡ₚ x :: (map_to_list m).*2).
      { rewrite map_to_list_insert by done. reflexivity. }
      assert (Hsum : ∀ l1 l2 : list Z, l1 ≡ₚ l2 → sum_list l1 = sum_list l2).
      { induction 1; simpl; lia. }
      rewrite (Hsum _ _ (fmap_Permutation _ _ _ Hperm)). reflexivity.
    + intros i Hi. apply Hcover. destruct (decide (c = i)) as [->|Hne].
      * rewrite lookup_insert_eq. eauto.
      * by rewrite lookup_insert_ne.
Qed.

(** ** The root driver *)

(** [search] once its loop over the root moves has returned [scores]. *)
Lemma search_after_loop fuel game v (s s' : State) scores :
  objects s !! game = Some v ->
  child_scores fuel game 3 (player_turn v) (legal_moves v).1 s scores s' ->
  search fuel game s
  = timing_decorator (
      best ← py_max scores;
      best_move_index ← py_index scores best;
      best_move ← py_getitem (legal_moves v).1 best_move_index;
      shown ← py_max scores;
      positions ← get_counter;
      print (BestMoveLine best_move shown positions);;
      table ← get_table;
      print (TableSizeLine (size table));;
      set_counter 0;;
      set_table ∅;;
      ret (mkPlayResult best_move None [])) s'.
Proof.
  intros Hv Hcs. unfold search, timing_decorator.
  rewrite !run_bind. rewrite (run_read _ _ v) by done.
  rewrite !run_bind. rewrite (run_read _ _ v) by done.
  rewrite !run_bind. rewrite (for_moves_child_scores _ _ _ _ _ _ _ _ Hcs).
  reflexivity.
Qed.

Lemma search_no_moves fuel game v (s : State) :
  objects s !! game = Some v ->
  (legal_moves v).1 = [] ->
  search fuel game s = Raises ValueError s.
Proof.
  intros Hv Hmoves.
  rewrite (search_after_loop fuel game v s s []) by (rewrite ?Hmoves; done || constructor).
  reflexivity.
Qed.

Lemma search_some_moves fuel game v (s : State) :
  objects s !! game = Some v ->
  (legal_moves v).1 ≠ [] ->
  (3 < fuel)%nat ->
  ∃ scores s' i best_move best,
    child_scores fuel game 3 (player_turn v) (legal_moves v).1 s scores s'
    ∧ objects_kept s s'
    ∧ (legal_moves v).1 !! i = Some best_move
    ∧ scores !! i = Some best
    ∧ is_max best scores
    ∧ (∀ j x, (j < i)%nat → scores !! j = Some x → x ≠ best)
    ∧ search fuel game s
      = Returns (mkPlayResult best_move None []) (after_search best_move best s').
Proof.
  intros Hv Hmoves Hfuel.
  destruct (child_scores_exist fuel 3 (player_turn v)) with
    (moves := (legal_moves v).1) (game := game) (v := v) (s := s)
    as (scores & s' & Hcs & Hk & Hout); [|done|].
  { intros game' v' s1 Hv'. apply (recursive_search_returns _ _ _ _ v'); [lia|done]. }
  pose proof (child_scores_length _ _ _ _ _ _ _ _ Hcs) as Hlen.
  assert (Hne : scores ≠ []).
  { destruct scores; [|done]. destruct (legal_moves v).1; done. }
  destruct (py_max_returns scores s' Hne) as (best & Hbest & Hmax).
  destruct (first_index_elem best scores) as (i & Hi & Hat & Hfirst); [apply Hmax|].
  destruct (lookup_lt_is_Some_2 (legal_moves v).1 i) as [best_move Hmove].
  { rewrite <- Hlen. by eapply lookup_lt_Some. }
  exists scores, s', i, best_move, best.
  repeat (split; [done|]).
  rewrite (search_after_loop fuel game v s s' scores) by done.
  unfold timing_decorator. rewrite !run_bind, Hbest.
  rewrite !run_bind. unfold py_index. rewrite Hi.
  unfold ret at 1. rewrite run_bind. unfold py_getitem. rewrite Hmove.
  unfold ret at 1. rewrite run_bind, Hbest.
  unfold after_search. run_fields. rewrite <- !app_assoc. reflexivity.
Qed.

Lemma evaluate_position_score (position : gmap Z Piece) pc (s : State) :
  evaluate_position position pc s = Returns (material pc position) (counted s)
  ∧ material pc position
    = sum_list ((fun p => cell_value pc (Some p)) <$> pieces position).
Proof.
  rewrite run_evaluate_position, foldl_score, Z.add_0_l. fold (pieces position).
  rewrite sum_cell_values_count. split; reflexivity.
Qed.

(** * The claims *)

(** C1.  A state with at least one quiet move, searched at a depth above
    zero while its key is not in the table: the successors by the quiet
    moves are searched in order at [depth - 1]; the call returns the
    greatest of their scores when the state's turn is the perspective and
    the least otherwise, and has stored that result under the state's key
    when it returns.  ([fuel] bounds the recursion of the model; [depth]
    does not exceed it.) *)
Theorem recursive_search_combines_children fuel game depth pc v (s : State) :
  objects s !! game = Some v ->
  transposition_table s !! key_of v = None ->
  0 < depth <= Z.of_nat fuel ->
  (legal_moves v).1 ≠ [] ->
  ∃ scores s' r,
    child_scores fuel game (depth - 1) pc (legal_moves v).1 s scores s'
    ∧ (if decide (player_turn v = pc) then is_max r scores else is_min r scores)
    ∧ recursive_search (S fuel) game depth pc s
      = Returns r (with_table (<[key_of v := r]> (transposition_table s')) s').
Proof.
  intros Hv Hmiss Hd Hmoves.
  destruct (child_scores_exist fuel (depth - 1) pc) with
    (moves := (legal_moves v).1) (game := game) (v := v) (s := s)
    as (scores & s' & Hcs & Hk & _); [|done|].
  { intros game' v' s1 Hv'. apply (recursive_search_returns _ _ _ _ v'); [lia|done]. }
  assert (Hne : scores ≠ []).
  { apply child_scores_length in Hcs. destruct scores; [|done].
    destruct (legal_moves v).1; done. }
  rewrite (recursive_search_children _ _ _ _ v s s' scores) by (done || lia).
  destruct (decide (player_turn v = pc)) as [_|_].
  - destruct (py_max_returns scores s' Hne) as (r & Hr & Hmax).
    exists scores, s', r. rewrite run_bind, Hr. done.
  - destruct (py_min_returns scores s' Hne) as (r & Hr & Hmin).
    exists scores, s', r. rewrite run_bind, Hr. done.
Qed.

(** C2.  On a state with at least one quiet move, [search] searches the
    successor of every quiet root move at depth 3, in the order of the
    moves and from the perspective of the player to move, and returns the
    move at the first index that holds the greatest score: no score is
    greater, and every score before it is less.  A state with exactly one
    quiet move gets that move. *)
Theorem search_returns_first_best_move fuel game v (s : State) :
  objects s !! game = Some v ->
  (legal_moves v).1 ≠ [] ->
  (3 < fuel)%nat ->
  ∃ scores s' i best_move best,
    child_scores fuel game 3 (player_turn v) (legal_moves v).1 s scores s'
    ∧ (legal_moves v).1 !! i = Some best_move
    ∧ scores !! i = Some best
    ∧ (∀ j x, scores !! j = Some x → x <= best)
    ∧ (∀ j x, (j < i)%nat → scores !! j = Some x → x < best)
    ∧ search fuel game s
      = Returns (mkPlayResult best_move None []) (after_search best_move best s')
    ∧ (∀ m, (legal_moves v).1 = [m] → best_move = m).
Proof.
  intros Hv Hmoves Hfuel.
  destruct (search_some_moves fuel game v s Hv Hmoves Hfuel)
    as (scores & s' & i & best_move & best
        & Hcs & _ & Hmove & Hat & [_ Hub] & Hfirst & Hrun).
  exists scores, s', i, best_move, best.
  assert (Hle : ∀ j x, scores !! j = Some x → x <= best).
  { intros j x Hx. apply Hub. by eapply list_elem_of_lookup_2. }
  repeat (split; [done|]). split; [|split; [done|]].
  - intros j x Hj Hx. specialize (Hfirst j x Hj Hx). specialize (Hle j x Hx). lia.
  - intros m Hone. rewrite Hone in Hmove.
    destruct i as [|i]; simpl in Hmove; [congruence|].
    by rewrite lookup_nil in Hmove.
Qed.

(** C3.  When the key of the state is in the table, [recursive_search]
    returns the stored score at any depth and leaves the state as it was:
    nothing is evaluated or counted, nothing is stored, no object is
    created.  It holds with no fuel for a recursive call. *)
Theorem recursive_search_cache_hit game depth pc v cached (s : State) :
  objects s !! game = Some v ->
  transposition_table s !! key_of v = Some cached ->
  recursive_search 1 game depth pc s = Returns cached s
  ∧ ∀ fuel, recursive_search (S fuel) game depth pc s = Returns cached s.
Proof.
  intros Hv Hhit. split; [|intros fuel]; by apply (recursive_search_hit _ _ _ _ v).
Qed.

(** C4.  A state with no quiet move whose key is not in the table, at a
    depth above zero: the call returns 100 when [has_player_won] holds for
    the perspective and -100 when it does not; there is no third outcome. *)
Theorem recursive_search_terminal_scores fuel game depth pc v (s : State) :
  objects s !! game = Some v ->
  transposition_table s !! key_of v = None ->
  0 < depth ->
  (legal_moves v).1 = [] ->
  (has_player_won v pc = true →
     recursive_search (S fuel) game depth pc s = Returns 100 s)
  ∧ (has_player_won v pc = false →
     recursive_search (S fuel) game depth pc s = Returns (-100) s).
Proof.
  intros Hv Hmiss Hd Hmoves.
  rewrite (recursive_search_no_moves _ _ _ _ v) by (done || lia).
  split; intros ->; reflexivity.
Qed.

(** C5.  [evaluate_position] returns the material of the position seen by
    the perspective: 4 for each of its kings and 1 for each other piece of
    its own, -4 and -1 for the opponent's.  That is the sum of the values
    of the cells of any board that holds the position, an empty cell
    adding 0; a position without pieces scores 0. *)
Theorem evaluate_position_material (position : gmap Z Piece) pc (s : State) :
  evaluate_position position pc s = Returns (material pc position) (counted s)
  ∧ (∀ cells : list Z,
       NoDup cells → (∀ c, is_Some (position !! c) → c ∈ cells) →
       material pc position
       = sum_list ((fun c => cell_value pc (position !! c)) <$> cells))
  ∧ evaluate_position ∅ pc s = Returns 0 (counted s).
Proof.
  assert (Hscore : ∀ m : gmap Z Piece,
            evaluate_position m pc s = Returns (material pc m) (counted s)).
  { intros m. rewrite run_evaluate_position, foldl_score, Z.add_0_l.
    fold (pieces m). rewrite sum_cell_values_count. reflexivity. }
  split; [apply Hscore|]. split.
  - intros cells Hnd Hcover. rewrite (sum_cells_material pc position cells) by done.
    rewrite sum_cell_values_count. reflexivity.
  - rewrite Hscore. unfold material, count_pieces, pieces.
    rewrite map_to_list_empty. reflexivity.
Qed.

(** C6, as amended.  At depth zero, for a state whose key is not in the
    table, [recursive_search] returns what [evaluate_position] returns on
    the state's position for the same perspective, counts that evaluation
    and stores it under the state's key. *)
Theorem recursive_search_depth_zero_miss fuel game pc v (s : State) :
  objects s !! game = Some v ->
  transposition_table s !! key_of v = None ->
  ∃ score,
    evaluate_position (position_pieces v) pc s = Returns score (counted s)
    ∧ recursive_search (S fuel) game 0 pc s
      = Returns score
          (with_table (<[key_of v := score]> (transposition_table s)) (counted s)).
Proof.
  intros Hv Hmiss. exists (material pc (position_pieces v)).
  destruct (evaluate_position_score (position_pieces v) pc s) as [Hev _].
  split; [exact Hev|].
  rewrite (recursive_search_leaf _ _ _ v) by done.
  rewrite run_bind, Hev. reflexivity.
Qed.

(** C7.  For the two players [p] and [q], the evaluation of a position
    seen by [q] is the opposite of its evaluation seen by [p]. *)
Theorem evaluate_position_opposite (position : gmap Z Piece) p q (s1 s2 : State) :
  p ≠ q ->
  ∃ score,
    evaluate_position position p s1 = Returns score (counted s1)
    ∧ evaluate_position position q s2 = Returns (- score) (counted s2).
Proof.
  intros Hpq. exists (material p position).
  destruct (evaluate_position_score position p s1) as [Hp Hsum].
  destruct (evaluate_position_score position q s2) as [Hq Hsumq].
  split; [exact Hp|]. rewrite Hq. f_equal.
  rewrite Hsum, Hsumq. by apply sum_cell_values_opponent.
Qed.

(** C8, as amended.  On a state with no quiet move, [search] is not
    guarded: the loop runs no search, [max] of the empty list of scores
    raises [ValueError], and the engine, the objects and the output are as
    they were on entry. *)
Theorem search_no_moves_raises_ValueError fuel game v (s : State) :
  objects s !! game = Some v ->
  (legal_moves v).1 = [] ->
  search fuel game s = Raises ValueError s.
Proof. apply search_no_moves. Qed.

(** C9.  The table and the counter belong to one top-level [search]: the
    engine is created with an empty table and a zero counter; a [search]
    that returns has reset both, whatever it was entered with; and a
    [search] entered with an empty table and a zero counter ends, whether
    it returns or raises, with an empty table and a zero counter, so the
    next top-level search starts from them again. *)
Theorem search_resets_engine fuel game v (s : State) :
  objects s !! game = Some v ->
  (3 < fuel)%nat ->
  (∃ s0, init s = Returns tt s0 ∧ fresh_engine s0)
  ∧ (∀ result s', search fuel game s = Returns result s' → fresh_engine s')
  ∧ (fresh_engine s →
     match search fuel game s with
     | Returns _ s' | Raises _ s' => fresh_engine s'
     | OutOfFuel | NoObject => False
     end).
Proof.
  intros Hv Hfuel. split; [|split].
  - eexists. split; [reflexivity|]. split; reflexivity.
  - intros result s'. destruct (legal_moves v).1 as [|m rest] eqn:Hmoves.
    + by rewrite (search_no_moves fuel game v s Hv Hmoves).
    + destruct (search_some_moves fuel game v s Hv) as
        (scores & s1 & i & best_move & best & _ & _ & _ & _ & _ & _ & Hrun);
        [by rewrite Hmoves|done|].
      rewrite Hrun. intros [= _ <-]. split; reflexivity.
  - intros Hfresh. destruct (legal_moves v).1 as [|m rest] eqn:Hmoves.
    + by rewrite (search_no_moves fuel game v s Hv Hmoves).
    + destruct (search_some_moves fuel game v s Hv) as
        (scores & s' & i & best_move & best & _ & _ & _ & _ & _ & _ & Hrun);
        [by rewrite Hmoves|done|].
      rewrite Hrun. split; reflexivity.
Qed.

(** C10.  Neither [recursive_search] nor [search] changes the game object
    it is given, nor any object that existed when it was called: the moves
    are played on copies.  A call ends with the caller's object holding the
    value it held, and with the old objects as a prefix of the store. *)
Theorem search_keeps_game_objects fuel game depth pc v (s : State) :
  objects s !! game = Some v ->
  (0 <= depth < Z.of_nat fuel →
     ∃ score s', recursive_search fuel game depth pc s = Returns score s'
                 ∧ objects s' !! game = Some v ∧ objects_kept s s')
  ∧ ((3 < fuel)%nat →
     match search fuel game s with
     | Returns _ s' | Raises _ s' => objects s' !! game = Some v ∧ objects_kept s s'
     | OutOfFuel | NoObject => False
     end).
Proof.
  intros Hv. split.
  - intros Hd. destruct (recursive_search_returns fuel depth game pc v s Hd Hv)
      as (score & s' & Hrun & Hk & _).
    exists score, s'. split; [done|]. split; [by eapply objects_kept_lookup|done].
  - intros Hfuel. destruct (legal_moves v).1 as [|m rest] eqn:Hmoves.
    + rewrite (search_no_moves fuel game v s Hv Hmoves).
      split; [done|apply objects_kept_refl].
    + destruct (search_some_moves fuel game v s Hv) as
        (scores & s' & i & best_move & best & _ & Hk & _ & _ & _ & _ & Hrun);
        [by rewrite Hmoves|done|].
      rewrite Hrun. unfold after_search, objects_kept. cbn [objects].
      split; [by eapply objects_kept_lookup|done].
Qed.

End Properties.

(** * The claims on the pile game *)

Section PileGame.
Import Pile.
#[local] Existing Instance pile_game.

(** [push] alone plays on the object it is given: it is the copy taken
    before it that keeps the caller's object. *)
Example push_changes_its_object :
  game_push 0%nat 1%nat (start (pile_of 5 White))
  = Returns 0%nat (mkState 0 ∅ [pile_of 4 Black] []).
Proof. reflexivity. Qed.

Lemma recursive_search_combines_children_witness :
  ∃ scores s' r,
    child_scores 2 0%nat (2 - 1) White (legal_moves (pile_of 5 White)).1
      (start (pile_of 5 White)) scores s'
    ∧ (if decide (player_turn (pile_of 5 White) = White)
       then is_max r scores else is_min r scores)
    ∧ recursive_search 3 0%nat 2 White (start (pile_of 5 White))
      = Returns r (with_table (<[key_of (pile_of 5 White) := r]>
                                 (transposition_table s')) s').
Proof.
  apply (recursive_search_combines_children 2 0%nat 2 White (pile_of 5 White)).
  - reflexivity.
  - vm_compute. reflexivity.
  - lia.
  - vm_compute. discriminate.
Defined.

Lemma search_returns_first_best_move_witness :
  ∃ scores s' i best_move best,
    child_scores 4 0%nat 3 (player_turn (pile_of 5 White))
      (legal_moves (pile_of 5 White)).1 (start (pile_of 5 White)) scores s'
    ∧ (legal_moves (pile_of 5 White)).1 !! i = Some best_move
    ∧ scores !! i = Some best
    ∧ (∀ j x, scores !! j = Some x → x <= best)
    ∧ (∀ j x, (j < i)%nat → scores !! j = Some x → x < best)
    ∧ search 4 0%nat (start (pile_of 5 White))
      = Returns (mkPlayResult best_move None []) (after_search best_move best s')
    ∧ (∀ m, (legal_moves (pile_of 5 White)).1 = [m] → best_move = m).
Proof.
  apply (search_returns_first_best_move 4 0%nat (pile_of 5 White)).
  - reflexivity.
  - vm_compute. discriminate.
  - lia.
Defined.

Lemma recursive_search_cache_hit_witness :
  recursive_search 1 0%nat 0 White (seen_before (pile_of 5 White))
  = Returns 7 (seen_before (pile_of 5 White))
  ∧ ∀ fuel, recursive_search (S fuel) 0%nat 0 White (seen_before (pile_of 5 White))
            = Returns 7 (seen_before (pile_of 5 White)).
Proof.
  apply (recursive_search_cache_hit 0%nat 0 White (pile_of 5 White) 7).
  - reflexivity.
  - vm_compute. reflexivity.
Defined.

Lemma recursive_search_terminal_scores_witness :
  has_player_won (pile_of 0 White) Black = true
  ∧ recursive_search 1 0%nat 2 Black (start (pile_of 0 White))
    = Returns 100 (start (pile_of 0 White)).
Proof.
  split; [reflexivity|].
  refine (proj1 (recursive_search_terminal_scores 0 0%nat 2 Black (pile_of 0 White)
                   (start (pile_of 0 White)) _ _ _ _) _).
  - reflexivity.
  - vm_compute. reflexivity.
  - lia.
  - reflexivity.
  - reflexivity.
Defined.

Lemma evaluate_position_material_witness :
  evaluate_position (pile_position (pile_of 5 White)) White (start (pile_of 5 White))
  = Returns 1 (counted (start (pile_of 5 White)))
  ∧ material White (pile_position (pile_of 5 White))
    = sum_list ((fun c => cell_value White (pile_position (pile_of 5 White) !! c))
                  <$> [0; 1; 2; 3; 4; 5; 6; 7]).
Proof.
  destruct (evaluate_position_material (pile_position (pile_of 5 White)) White
              (start (pile_of 5 White))) as (Hrun & Hcells & _).
  split.
  - rewrite Hrun. reflexivity.
  - apply Hcells.
    + refine (bool_decide_unpack (NoDup _) _). vm_compute. exact I.
    + intros c [x Hx]. unfold pile_position in Hx.
      apply elem_of_list_to_map_2, list_elem_of_In, in_map_iff in Hx.
      destruct Hx as (i & Heq & Hi). apply in_seq in Hi. simpl in Hi.
      inversion Heq. rewrite !elem_of_cons. lia.
Defined.

(** C6 fails as stated.  A search of the pile of five at depth 3 files the
    score 4 under its key; in the state it leaves, the depth-zero call on
    the same game returns the stored 4 and stores nothing, while the
    position evaluates to 1: the two have no score in common. *)
Lemma recursive_search_depth_zero_hit_counterexample :
  ∃ s,
    recursive_search 4 0%nat 3 White (start (pile_of 5 White)) = Returns 4 s
    ∧ recursive_search 1 0%nat 0 White s = Returns 4 s
    ∧ evaluate_position (position_pieces (pile_of 5 White)) White s
      = Returns 1 (counted s)
    ∧ ¬ ∃ score s1 s2,
          evaluate_position (position_pieces (pile_of 5 White)) White s
          = Returns score s1
          ∧ recursive_search 1 0%nat 0 White s = Returns score s2.
Proof.
  pose (s := match recursive_search 4 0%nat 3 White (start (pile_of 5 White)) with
             | Returns _ s' => s'
             | _ => start (pile_of 5 White)
             end).
  assert (Hdeep : recursive_search 4 0%nat 3 White (start (pile_of 5 White))
                  = Returns 4 s) by (vm_compute; reflexivity).
  assert (Hhit : recursive_search 1 0%nat 0 White s = Returns 4 s)
    by (vm_compute; reflexivity).
  assert (Heval : evaluate_position (position_pieces (pile_of 5 White)) White s
                  = Returns 1 (counted s)) by (vm_compute; reflexivity).
  clearbody s.
  exists s. split; [exact Hdeep|]. split; [exact Hhit|]. split; [exact Heval|].
  intros (score & s1 & s2 & Hscore & Hrun).
  rewrite Heval in Hscore. rewrite Hhit in Hrun.
  inversion Hscore. inversion Hrun. lia.
Qed.

Lemma recursive_search_depth_zero_miss_witness :
  ∃ score,
    evaluate_position (position_pieces (pile_of 5 White)) White (start (pile_of 5 White))
    = Returns score (counted (start (pile_of 5 White)))
    ∧ recursive_search 1 0%nat 0 White (start (pile_of 5 White))
      = Returns score
          (with_table (<[key_of (pile_of 5 White) := score]>
                         (transposition_table (start (pile_of 5 White))))
                      (counted (start (pile_of 5 White)))).
Proof.
  apply (recursive_search_depth_zero_miss 0 0%nat White (pile_of 5 White)).
  - reflexivity.
  - vm_compute. reflexivity.
Defined.

Lemma evaluate_position_opposite_witness :
  White ≠ Black
  ∧ ∃ score,
      evaluate_position (pile_position (pile_of 5 White)) White (start (pile_of 5 White))
      = Returns score (counted (start (pile_of 5 White)))
      ∧ evaluate_position (pile_position (pile_of 5 White)) Black (start (pile_of 5 White))
        = Returns (- score) (counted (start (pile_of 5 White))).
Proof.
  split; [discriminate|].
  apply (evaluate_position_opposite (pile_position (pile_of 5 White)) White Black).
  discriminate.
Defined.

(** C8 fails as stated: with no move to choose from, [search] raises the
    [ValueError] of [max], not a [NoLegalMoveError]. *)
Lemma search_no_moves_counterexample :
  search 4 0%nat (start (pile_of 0 White))
  = Raises (Exc "ValueError") (start (pile_of 0 White))
  ∧ ¬ ∃ e s', search 4 0%nat (start (pile_of 0 White)) = Raises e s'
              ∧ class_of e = "NoLegalMoveError"%string.
Proof.
  assert (Hraises : search 4 0%nat (start (pile_of 0 White))
                    = Raises (Exc "ValueError") (start (pile_of 0 White)))
    by reflexivity.
  split; [exact Hraises|]. intros (e & s' & Hrun & Hclass).
  rewrite Hraises in Hrun. inversion Hrun; subst e. discriminate Hclass.
Qed.

Lemma search_no_moves_raises_ValueError_witness :
  (legal_moves (pile_of 0 White)).1 = []
  ∧ search 4 0%nat (start (pile_of 0 White)) = Raises ValueError (start (pile_of 0 White)).
Proof.
  split; [reflexivity|].
  apply (search_no_moves_raises_ValueError 4 0%nat (pile_of 0 White)); reflexivity.
Defined.

Lemma search_resets_engine_witness :
  fresh_engine (start (pile_of 5 White))
  ∧ match search 4 0%nat (start (pile_of 5 White)) with
    | Returns _ s' | Raises _ s' => fresh_engine s'
    | OutOfFuel | NoObject => False
    end.
Proof.
  split; [split; reflexivity|].
  refine (proj2 (proj2 (search_resets_engine 4 0%nat (pile_of 5 White)
                          (start (pile_of 5 White)) _ _)) _).
  - reflexivity.
  - lia.
  - split; reflexivity.
Defined.

Lemma search_keeps_game_objects_witness :
  (∃ score s', recursive_search 4 0%nat 3 White (start (pile_of 5 White))
               = Returns score s'
               ∧ objects s' !! 0%nat = Some (pile_of 5 White)
               ∧ objects_kept (start (pile_of 5 White)) s')
  ∧ match search 4 0%nat (start (pile_of 5 White)) with
    | Returns _ s' | Raises _ s' =>
        objects s' !! 0%nat = Some (pile_of 5 White)
        ∧ objects_kept (start (pile_of 5 White)) s'
    | OutOfFuel | NoObject => False
    end.
Proof.
  destruct (search_keeps_game_objects 4 0%nat 3 White (pile_of 5 White)
              (start (pile_of 5 White))) as [Hrec Hsearch]; [reflexivity|].
  split; [apply Hrec; lia|apply Hsearch; lia].
Defined.

End PileGame.

(** * Further properties *)

Section Evaluation.
Context `{Lib : Collaborators}.

(** ** The evaluation as a sum over the pieces *)

Lemma sum_list_cons (x : Z) (l : list Z) : sum_list (x :: l) = x + sum_list l.
Proof. reflexivity. Qed.

Lemma sum_list_Permutation (l1 l2 : list Z) :
  l1 ≡ₚ l2 -> sum_list l1 = sum_list l2.
Proof. induction 1; simpl; lia. Qed.

Lemma cell_value_bounds (pc : Player) (p : Piece) :
  1 <= Z.abs (cell_value pc (Some p)) <= 4.
Proof.
  unfold cell_value. destruct (decide (player p = pc)), (king p); lia.
Qed.

Lemma cell_value_own (pc : Player) (p : Piece) :
  player p = pc -> 1 <= cell_value pc (Some p) <= 4.
Proof.
  intros Hown. unfold cell_value.
  destruct (decide (player p = pc)); [|done]. destruct (king p); lia.
Qed.

Lemma cell_value_other (pc : Player) (p : Piece) :
  player p ≠ pc -> -4 <= cell_value pc (Some p) <= -1.
Proof.
  intros Hother. unfold cell_value.
  destruct (decide (player p = pc)); [done|]. destruct (king p); lia.
Qed.

Lemma pieces_length (position : gmap Z Piece) :
  length (pieces position) = size position.
Proof. unfold pieces. by rewrite length_fmap, length_map_to_list. Qed.

Lemma pieces_lookup (position : gmap Z Piece) (p : Piece) :
  p ∈ pieces position -> ∃ c, position !! c = Some p.
Proof.
  unfold pieces. intros Hin. apply list_elem_of_fmap in Hin as ([c p'] & -> & Hin).
  exists c. by apply elem_of_map_to_list.
Qed.

Lemma pieces_insert (position : gmap Z Piece) (c : Z) (p : Piece) :
  position !! c = None ->
  pieces (<[c := p]> position) ≡ₚ p :: pieces position.
Proof.
  intros Hc. unfold pieces. by rewrite map_to_list_insert.
Qed.

Lemma pieces_delete (position : gmap Z Piece) (c : Z) (p : Piece) :
  position !! c = Some p ->
  p :: pieces (delete c position) ≡ₚ pieces position.
Proof.
  intros Hc. unfold pieces.
  rewrite <- (map_to_list_delete position c p Hc). reflexivity.
Qed.

(** The score of a list of pieces. *)
Lemma material_Permutation (pc : Player) (position1 position2 : gmap Z Piece) :
  pieces position1 ≡ₚ pieces position2 ->
  material pc position1 = material pc position2.
Proof.
  intros Hperm.
  destruct (evaluate_position_score position1 pc (mkState 0 ∅ [] [])) as [_ ->].
  destruct (evaluate_position_score position2 pc (mkState 0 ∅ [] [])) as [_ ->].
  apply sum_list_Permutation. by apply fmap_Permutation.
Qed.

Lemma material_delete (pc : Player) (position : gmap Z Piece) (c : Z) :
  material pc (delete c position)
  = material pc position - cell_value pc (position !! c).
Proof.
  destruct (position !! c) as [p|] eqn:Hc.
  - destruct (evaluate_position_score position pc (mkState 0 ∅ [] [])) as [_ ->].
    destruct (evaluate_position_score (delete c position) pc (mkState 0 ∅ [] []))
      as [_ ->].
    rewrite <- (sum_list_Permutation _ _
                  (fmap_Permutation (fun x => cell_value pc (Some x)) _ _
                     (pieces_delete position c p Hc))).
    rewrite fmap_cons, sum_list_cons. lia.
  - rewrite delete_id by done. change (cell_value pc None) with 0. lia.
Qed.

Lemma material_insert (pc : Player) (position : gmap Z Piece) (c : Z) (p : Piece) :
  material pc (<[c := p]> position)
  = material pc position - cell_value pc (position !! c) + cell_value pc (Some p).
Proof.
  rewrite <- insert_delete_eq, <- material_delete.
  destruct (evaluate_position_score (<[c := p]> (delete c position)) pc
              (mkState 0 ∅ [] [])) as [_ ->].
  destruct (evaluate_position_score (delete c position) pc (mkState 0 ∅ [] []))
    as [_ ->].
  rewrite (sum_list_Permutation _ _
             (fmap_Permutation (fun x => cell_value pc (Some x)) _ _
                (pieces_insert (delete c position) c p (lookup_delete_eq _ _)))).
  rewrite fmap_cons, sum_list_cons. lia.
Qed.

Lemma sum_cell_values_bounds (pc : Player) (l : list Piece) :
  Z.abs (sum_list ((fun p => cell_value pc (Some p)) <$> l))
  <= 4 * Z.of_nat (length l).
Proof.
  induction l as [|p l IH]; [simpl; lia|].
  rewrite fmap_cons, sum_list_cons. cbn [length].
  pose proof (cell_value_bounds pc p). lia.
Qed.

Lemma sum_cell_values_own (pc : Player) (l : list Piece) :
  (∀ p, p ∈ l → player p = pc) ->
  Z.of_nat (length l) <= sum_list ((fun p => cell_value pc (Some p)) <$> l).
Proof.
  induction l as [|p l IH]; intros Hall; [simpl; lia|].
  rewrite fmap_cons, sum_list_cons. cbn [length].
  pose proof (cell_value_own pc p (Hall p (list_elem_of_here _ _))).
  assert (Z.of_nat (length l) <= sum_list ((λ p, cell_value pc (Some p)) <$> l)).
  { apply IH. intros q Hq. apply Hall. by apply list_elem_of_further. }
  lia.
Qed.

Lemma sum_cell_values_other (pc : Player) (l : list Piece) :
  (∀ p, p ∈ l → player p ≠ pc) ->
  sum_list ((fun p => cell_value pc (Some p)) <$> l) <= - Z.of_nat (length l).
Proof.
  induction l as [|p l IH]; intros Hall; [simpl; lia|].
  rewrite fmap_cons, sum_list_cons. cbn [length].
  pose proof (cell_value_other pc p (Hall p (list_elem_of_here _ _))).
  assert (sum_list ((λ p, cell_value pc (Some p)) <$> l) <= - Z.of_nat (length l)).
  { apply IH. intros q Hq. apply Hall. by apply list_elem_of_further. }
  lia.
Qed.

(** X1.  The score of a position lies between -4 and 4 times the number of
    its pieces, and each call counts one position. *)
Theorem evaluate_position_bounded (position : gmap Z Piece) pc (s : State) :
  ∃ score,
    evaluate_position position pc s = Returns score (counted s)
    ∧ - 4 * Z.of_nat (size position) <= score <= 4 * Z.of_nat (size position)
    ∧ counter (counted s) = counter s + 1.
Proof.
  exists (material pc position).
  destruct (evaluate_position_score position pc s) as [Hrun Hsum].
  split; [exact Hrun|]. split; [|reflexivity].
  pose proof (sum_cell_values_bounds pc (pieces position)) as Hb.
  rewrite pieces_length in Hb. rewrite Hsum. lia.
Qed.

(** X2.  A position that holds pieces of one player only has the sign of
    that player: seen by the owner the score is at least the number of
    pieces, hence positive on a board that is not empty; seen by the other
    player it is at most minus that number. *)
Theorem evaluate_position_one_sided (position : gmap Z Piece) owner pc (s : State) :
  (∀ c p, position !! c = Some p → player p = owner) ->
  position ≠ ∅ ->
  ∃ score,
    evaluate_position position pc s = Returns score (counted s)
    ∧ (pc = owner → 0 < Z.of_nat (size position) <= score)
    ∧ (pc ≠ owner → score <= - Z.of_nat (size position) < 0).
Proof.
  intros Hall Hne. exists (material pc position).
  destruct (evaluate_position_score position pc s) as [Hrun Hsum].
  split; [exact Hrun|].
  assert (Hsize : 0 < Z.of_nat (size position)).
  { apply map_size_non_empty_iff in Hne. lia. }
  rewrite Hsum, <- pieces_length. split.
  - intros ->. split; [by rewrite pieces_length|].
    apply sum_cell_values_own. intros p Hp.
    apply pieces_lookup in Hp as [c Hc]. by eapply Hall.
  - intros Hother. split; [|rewrite pieces_length; lia].
    apply sum_cell_values_other. intros p Hp.
    apply pieces_lookup in Hp as [c Hc]. rewrite (Hall c p Hc). congruence.
Qed.

(** X3.  The score does not depend on where the pieces stand: moving a
    piece from its field to an empty field leaves the score as it was. *)
Theorem evaluate_position_ignores_fields (position : gmap Z Piece) pc
    (from to : Z) (p : Piece) (s : State) :
  position !! from = Some p ->
  position !! to = None ->
  ∃ score,
    evaluate_position position pc s = Returns score (counted s)
    ∧ evaluate_position (<[to := p]> (delete from position)) pc s
      = Returns score (counted s).
Proof.
  intros Hfrom Hto. exists (material pc position).
  destruct (evaluate_position_score position pc s) as [Hrun _].
  destruct (evaluate_position_score (<[to := p]> (delete from position)) pc s)
    as [Hmoved _].
  split; [exact Hrun|]. rewrite Hmoved. f_equal.
  apply material_Permutation.
  rewrite pieces_insert.
  - by apply pieces_delete.
  - destruct (decide (from = to)) as [->|Hne]; [apply lookup_delete_eq|].
    by rewrite lookup_delete_ne.
Qed.

(** X4.  Putting a piece on a field changes the score by the value of that
    piece less the value of what stood there (nothing, for an empty
    field), and taking a piece off a field takes its value off the score.
    Crowning a piece thus gains its owner 3 and capturing a piece gains the
    capturer its value. *)
Theorem evaluate_position_update (position : gmap Z Piece) pc (c : Z)
    (p : Piece) (s : State) :
  ∃ score,
    evaluate_position position pc s = Returns score (counted s)
    ∧ evaluate_position (<[c := p]> position) pc s
      = Returns (score - cell_value pc (position !! c) + cell_value pc (Some p))
                (counted s)
    ∧ evaluate_position (delete c position) pc s
      = Returns (score - cell_value pc (position !! c)) (counted s).
Proof.
  exists (material pc position).
  destruct (evaluate_position_score position pc s) as [Hrun _].
  destruct (evaluate_position_score (<[c := p]> position) pc s) as [Hput _].
  destruct (evaluate_position_score (delete c position) pc s) as [Hoff _].
  split; [exact Hrun|]. split.
  - rewrite Hput, material_insert. reflexivity.
  - rewrite Hoff, material_delete. reflexivity.
Qed.

End Evaluation.

Section SearchEffects.
Context `{Lib : Collaborators}.
Implicit Types (game : ref) (depth : Z) (fuel : nat) (v : Game).

(** ** Reasoning about what a computation does when it returns *)

Lemma computes_bind {A B} (m : M A) (k : A -> M B) (s : State)
    (Q : B -> State -> Prop) :
  computes m s (fun a s' => computes (k a) s' Q) -> computes (m ≫= k) s Q.
Proof.
  unfold computes. rewrite run_bind. by destruct (m s).
Qed.

Lemma computes_weaken {A} (m : M A) (s : State) (Q Q' : A -> State -> Prop) :
  computes m s Q -> (∀ a s', Q a s' → Q' a s') -> computes m s Q'.
Proof.
  unfold computes. intros Hm HQ. destruct (m s); auto.
Qed.

Lemma computes_read {A} (f : Game -> A) game v (s : State)
    (Q : A -> State -> Prop) :
  objects s !! game = Some v -> Q (f v) s -> computes (read f game) s Q.
Proof.
  intros Hv HQ. unfold computes. by rewrite (run_read _ _ v).
Qed.

(** ** The effect of a search on the engine *)

Lemma search_effect_refl (s : State) : search_effect s s.
Proof.
  split; [apply objects_kept_refl|done|lia|done|lia].
Qed.

Lemma search_effect_trans (s1 s2 s3 : State) :
  search_effect s1 s2 -> search_effect s2 s3 -> search_effect s1 s3.
Proof.
  intros [Ho1 Hp1 Hc1 Hk1 Hz1] [Ho2 Hp2 Hc2 Hk2 Hz2]. split.
  - by eapply objects_kept_trans.
  - congruence.
  - lia.
  - auto.
  - lia.
Qed.

Lemma search_effect_successor (s : State) v (m : Move) :
  search_effect s (with_successor v m s).
Proof.
  split; [apply objects_kept_successor|done|simpl; lia|done|simpl; lia].
Qed.

(** Storing a score: a key may be added, none is lost. *)
Lemma search_effect_store (s : State) (key score : Z) :
  search_effect s (with_table (<[key := score]> (transposition_table s)) s).
Proof.
  split; cbn [objects stdout counter transposition_table with_table].
  - unfold objects_kept. simpl. reflexivity.
  - done.
  - lia.
  - intros k Hk. rewrite lookup_insert_is_Some.
    destruct (decide (key = k)); auto.
  - rewrite map_size_insert.
    destruct (transposition_table s !! key); simpl; lia.
Qed.

(** Evaluating and storing a position whose key was not there: one more
    position counted, one more key stored. *)
Lemma search_effect_leaf (s : State) (key score : Z) :
  transposition_table s !! key = None ->
  search_effect s
    (with_table (<[key := score]> (transposition_table (counted s))) (counted s)).
Proof.
  intros Hmiss.
  split; cbn [objects stdout counter transposition_table with_table with_counter counted].
  - unfold objects_kept. simpl. reflexivity.
  - done.
  - lia.
  - intros k Hk. rewrite lookup_insert_is_Some.
    destruct (decide (key = k)); auto.
  - rewrite map_size_insert, Hmiss. lia.
Qed.

(** The loop over the moves, when each search keeps [search_effect]. *)
Lemma for_moves_effect fuel game depth pc v (s0 : State)
  (Hlive : objects s0 !! game = Some v)
  (Hrec : ∀ game' v' (s1 : State), objects s1 !! game' = Some v' ->
     computes (recursive_search fuel game' depth pc) s1
       (fun _ s2 => search_effect s1 s2)) :
  ∀ moves acc (s1 : State),
    search_effect s0 s1 ->
    computes (for_moves (fun m => copied ← game_copy game;
                                  new_game ← game_push copied m;
                                  recursive_search fuel new_game depth pc)
                        moves acc) s1
      (fun scores s2 => search_effect s0 s2
                        ∧ length scores = (length acc + length moves)%nat).
Proof.
  induction moves as [|m rest IH]; intros acc s1 Hs1.
  - unfold computes. simpl. split; [done|lia].
  - cbn [for_moves]. apply computes_bind.
    assert (Hv1 : objects s1 !! game = Some v).
    { eapply objects_kept_lookup; [apply Hs1|done]. }
    unfold computes at 1. rewrite (run_copy_push _ v) by done.
    specialize (Hrec (length (objects s1)) (push v m) (with_successor v m s1)).
    unfold computes in Hrec at 1.
    destruct (recursive_search fuel (length (objects s1)) depth pc
                (with_successor v m s1)) as [score s2| | |]; try done.
    + assert (Hs2 : search_effect s0 s2).
      { eapply search_effect_trans; [exact Hs1|].
        eapply search_effect_trans; [apply (search_effect_successor s1 v m)|].
        apply Hrec. unfold with_successor. cbn. by apply list_lookup_middle. }
      eapply computes_weaken; [apply (IH (acc ++ [score]) s2 Hs2)|].
      intros scores s3 [Hs3 Hlen]. split; [done|].
      rewrite Hlen, length_app. simpl. lia.
    + apply Hrec. unfold with_successor. cbn. by apply list_lookup_middle.
    + apply Hrec. unfold with_successor. cbn. by apply list_lookup_middle.
Qed.

(** What a search of a live game object does, whatever the depth and the
    fuel: it does not raise; when it returns, the engine has only grown, and
    the score is filed under the key of the game unless the game had no
    move left at a depth other than zero, in which case nothing changed. *)
Lemma recursive_search_effect fuel : ∀ depth game pc v (s : State),
  objects s !! game = Some v ->
  computes (recursive_search fuel game depth pc) s
    (fun score s' =>
       search_effect s s'
       ∧ (transposition_table s' !! key_of v = Some score
          ∨ (depth ≠ 0 ∧ (legal_moves v).1 = [] ∧ s' = s))).
Proof.
  induction fuel as [|fuel IH]; intros depth game pc v s Hv; [done|].
  destruct (transposition_table s !! key_of v) as [cached|] eqn:Htable.
  { unfold computes. rewrite (recursive_search_hit _ _ _ _ v cached) by done.
    split; [apply search_effect_refl|by left]. }
  destruct (decide (depth = 0)) as [->|Hnz].
  { unfold computes. rewrite (recursive_search_leaf _ _ _ v) by done.
    rewrite run_bind, run_evaluate_position.
    split; [by apply search_effect_leaf|]. left.
    cbn [transposition_table with_table]. apply lookup_insert_eq. }
  destruct (legal_moves v).1 as [|m rest] eqn:Hmoves.
  { unfold computes. rewrite (recursive_search_no_moves _ _ _ _ v) by done.
    split; [apply search_effect_refl|by right]. }
  cbn [recursive_search]. apply computes_bind, (computes_read _ _ v); [done|].
  apply computes_bind. unfold computes at 1, get_table at 1.
  fold (key_of v). rewrite Htable. destruct (decide (depth = 0)) as [|_]; [done|].
  apply computes_bind, (computes_read _ _ v); [done|]. rewrite Hmoves.
  apply computes_bind.
  eapply computes_weaken.
  { apply (for_moves_effect fuel game (depth - 1) pc v s Hv); [|apply search_effect_refl].
    intros game' v' s1 Hv'. eapply computes_weaken; [by apply (IH _ _ _ v')|].
    by intros score s2 [Heff _]. }
  intros scores s1 [Hs1 Hlen]. cbn [length] in Hlen.
  assert (Hne : scores ≠ []) by (destruct scores; simpl in Hlen; [lia|done]).
  apply computes_bind, (computes_read _ _ v).
  { eapply objects_kept_lookup; [apply Hs1|done]. }
  destruct (decide (player_turn v = pc)) as [_|_].
  - destruct (py_max_returns scores s1 Hne) as (r & Hr & _).
    unfold computes. rewrite run_bind, Hr. split.
    + eapply search_effect_trans; [exact Hs1|apply search_effect_store].
    + left. cbn [transposition_table with_table]. apply lookup_insert_eq.
  - destruct (py_min_returns scores s1 Hne) as (r & Hr & _).
    unfold computes. rewrite run_bind, Hr. split.
    + eapply search_effect_trans; [exact Hs1|apply search_effect_store].
    + left. cbn [transposition_table with_table]. apply lookup_insert_eq.
Qed.

Lemma child_scores_effect fuel game depth pc moves (s s' : State) scores :
  child_scores fuel game depth pc moves s scores s' -> search_effect s s'.
Proof.
  induction 1 as [s|m rest s v score s1 scores s2 Hv Hrun _ IH].
  - apply search_effect_refl.
  - eapply search_effect_trans; [|exact IH].
    eapply search_effect_trans; [apply (search_effect_successor s v m)|].
    pose proof (recursive_search_effect fuel depth (length (objects s)) pc
                  (push v m) (with_successor v m s)) as Heff.
    unfold computes in Heff. rewrite Hrun in Heff. apply Heff.
    unfold with_successor. cbn. by apply list_lookup_middle.
Qed.


(** X6.  Searching the same game object again, at the same depth and from
    the state the first search left, returns the same score and changes
    nothing. *)
Theorem recursive_search_twice fuel game depth pc v (s s' : State) score :
  objects s !! game = Some v ->
  recursive_search fuel game depth pc s = Returns score s' ->
  recursive_search fuel game depth pc s' = Returns score s'.
Proof.
  intros Hv Hrun.
  pose proof (recursive_search_effect fuel depth game pc v s Hv) as Heff.
  unfold computes in Heff. rewrite Hrun in Heff.
  destruct Heff as [Heff [Hstored|(_ & _ & ->)]]; [|exact Hrun].
  destruct fuel as [|fuel]; [done|].
  apply (recursive_search_hit _ _ _ _ v); [|done].
  eapply objects_kept_lookup; [apply Heff|done].
Qed.

(** X7.  Once a search has returned a score for a game at depth zero, or
    for a game that has a move, that score is what every later search
    returns for any game object with the same key, at whatever depth and
    for whatever perspective, without changing the state. *)
Theorem recursive_search_reuses_score fuel game depth pc v (s s' : State) score :
  objects s !! game = Some v ->
  depth = 0 ∨ (legal_moves v).1 ≠ [] ->
  recursive_search fuel game depth pc s = Returns score s' ->
  ∀ fuel' game' depth' pc' v',
    objects s' !! game' = Some v' → key_of v' = key_of v →
    recursive_search (S fuel') game' depth' pc' s' = Returns score s'.
Proof.
  intros Hv Hcase Hrun fuel' game' depth' pc' v' Hv' Hkey.
  pose proof (recursive_search_effect fuel depth game pc v s Hv) as Heff.
  unfold computes in Heff. rewrite Hrun in Heff.
  destruct Heff as [_ [Hstored|(Hnz & Hnone & _)]].
  - apply (recursive_search_hit _ _ _ _ v'); [done|]. by rewrite Hkey.
  - destruct Hcase; done.
Qed.

(** X8.  A [search] entered with a fresh engine prints, before it resets
    the engine, a number of calculated positions that is not negative and
    does not exceed the number of stored positions it prints next. *)
Theorem search_counts_at_most_stored fuel game v (s : State) :
  objects s !! game = Some v ->
  (legal_moves v).1 ≠ [] ->
  (3 < fuel)%nat ->
  fresh_engine s ->
  ∃ result s' best_move best positions stored,
    search fuel game s = Returns result s'
    ∧ stdout s' = stdout s ++ [BestMoveLine best_move best positions;
                               TableSizeLine stored; TimingLine]
    ∧ 0 <= positions <= Z.of_nat stored.
Proof.
  intros Hv Hmoves Hfuel [Hcounter Htable].
  destruct (search_some_moves fuel game v s Hv Hmoves Hfuel)
    as (scores & s1 & i & best_move & best & Hcs & _ & _ & _ & _ & _ & Hrun).
  destruct (child_scores_effect _ _ _ _ _ _ _ _ Hcs) as [_ Hout Hc _ Hz].
  rewrite Htable, map_size_empty, Hcounter in *.
  exists (mkPlayResult best_move None []), (after_search best_move best s1),
    best_move, best, (counter s1), (size (transposition_table s1)).
  split; [exact Hrun|]. split; [|lia].
  unfold after_search. cbn [stdout]. by rewrite Hout.
Qed.

End SearchEffects.

Section Strategies.
Context `{Notation : MoveNotation}.

(** ** The order of [str] *)

Lemma ascii_compare_refl (a : ascii) : Ascii.compare a a = Eq.
Proof. unfold Ascii.compare. apply N.compare_refl. Qed.

Lemma ascii_compare_lt_trans (a b c : ascii) :
  Ascii.compare a b = Lt -> Ascii.compare b c = Lt -> Ascii.compare a c = Lt.
Proof.
  unfold Ascii.compare. rewrite !N.compare_lt_iff. lia.
Qed.

Lemma string_compare_refl (a : string) : String.compare a a = Eq.
Proof.
  induction a as [|x a IH]; [done|]. simpl. by rewrite ascii_compare_refl.
Qed.

Lemma string_compare_lt_trans (a : string) : ∀ b c,
  String.compare a b = Lt -> String.compare b c = Lt -> String.compare a c = Lt.
Proof.
  induction a as [|x a IH]; intros [|y b] [|z c]; simpl; try done.
  destruct (Ascii.compare x y) eqn:Hxy; try done;
    destruct (Ascii.compare y z) eqn:Hyz; try done; intros Hab Hbc.
  - apply Ascii.compare_eq_iff in Hxy as ->. rewrite Hyz. by apply (IH b).
  - apply Ascii.compare_eq_iff in Hxy as ->. by rewrite Hyz.
  - apply Ascii.compare_eq_iff in Hyz as <-. by rewrite Hxy.
  - by rewrite (ascii_compare_lt_trans x y z).
Qed.

Lemma str_lt_irrefl (a : string) : str_lt a a = false.
Proof. unfold str_lt, String.ltb. by rewrite string_compare_refl. Qed.

Lemma str_lt_asym (a b : string) : str_lt a b = true -> str_lt b a = false.
Proof.
  unfold str_lt, String.ltb. rewrite (String.compare_antisym a b).
  by destruct (String.compare b a).
Qed.

(** What is not less than [b], with [b] not less than [c], is not less
    than [c]. *)
Lemma str_lt_false_trans (a b c : string) :
  str_lt a b = false -> str_lt b c = false -> str_lt a c = false.
Proof.
  unfold str_lt, String.ltb. intros Hab Hbc.
  destruct (String.compare a c) eqn:Hac; try done. exfalso.
  destruct (String.compare a b) eqn:Hab'; try done.
  - apply String.compare_eq_iff in Hab' as ->. by rewrite Hac in Hbc.
  - assert (Hba : String.compare b a = Lt).
    { rewrite String.compare_antisym, Hab'. done. }
    by rewrite (string_compare_lt_trans b a c Hba Hac) in Hbc.
Qed.

(** ** The head of a sorted list *)

Lemma insert_by_key_Permutation {A} (key : A -> string) (x : A) (l : list A) :
  insert_by_key key x l ≡ₚ x :: l.
Proof.
  induction l as [|y l IH]; [done|]. simpl.
  destruct (str_lt (key y) (key x)); [|done].
  rewrite IH. apply Permutation_swap.
Qed.

(** Sorting rearranges the list. *)
Lemma py_sort_by_key_Permutation {A} (key : A -> string) (l : list A) :
  py_sort_by_key key l ≡ₚ l.
Proof.
  induction l as [|x l IH]; [done|].
  change (py_sort_by_key key (x :: l))
    with (insert_by_key key x (py_sort_by_key key l)).
  by rewrite insert_by_key_Permutation, IH.
Qed.

Lemma py_sort_by_key_head {A} (key : A -> string) (l : list A) :
  l ≠ [] ->
  ∃ i m rest, py_sort_by_key key l = m :: rest ∧ first_least key l i m.
Proof.
  induction l as [|x l IH]; [done|]. intros _.
  destruct l as [|x' l].
  { exists O, x, []. split; [done|]. split; [done|]. split.
    - intros [|j] y Hy; simpl in Hy; [|done]. injection Hy as <-.
      apply str_lt_irrefl.
    - intros j y Hj. lia. }
  destruct IH as (i & h & rest & Hsort & Hat & Hleast & Hfirst); [done|].
  change (py_sort_by_key key (x :: x' :: l))
    with (insert_by_key key x (py_sort_by_key key (x' :: l))).
  rewrite Hsort. cbn [insert_by_key].
  destruct (str_lt (key h) (key x)) eqn:Hhx.
  - exists (S i), h, (insert_by_key key x rest). split; [done|].
    split; [exact Hat|]. split.
    + intros [|j] y Hy; simpl in Hy.
      * injection Hy as <-. by apply str_lt_asym.
      * by apply (Hleast j).
    + intros [|j] y Hj Hy; simpl in Hy.
      * by injection Hy as <-.
      * apply (Hfirst j); [lia|done].
  - exists O, x, (h :: rest). split; [done|]. split; [done|]. split.
    + intros [|j] y Hy; simpl in Hy.
      * injection Hy as <-. apply str_lt_irrefl.
      * eapply str_lt_false_trans; [by apply (Hleast j)|done].
    + intros j y Hj. lia.
Qed.

Lemma first_least_fmap {A B} (f : A -> B) (key : B -> string) (l : list A)
    (i : nat) (b : B) :
  first_least key (f <$> l) i b ->
  ∃ a, b = f a ∧ first_least (fun x => key (f x)) l i a.
Proof.
  intros (Hat & Hleast & Hfirst).
  rewrite list_lookup_fmap in Hat.
  destruct (l !! i) as [a|] eqn:Ha; [|done]. injection Hat as <-.
  exists a. split; [done|]. split; [done|]. split.
  - intros j x Hx. apply (Hleast j). by rewrite list_lookup_fmap, Hx.
  - intros j x Hj Hx. apply (Hfirst j); [done|]. by rewrite list_lookup_fmap, Hx.
Qed.

(** The common shape of the three strategies. *)
Lemma first_of_sorted {A} (key : A -> string) (l : list A) (s : State)
    (k : A -> M PlayResult) :
  (l = [] → (first ← py_getitem (py_sort_by_key key l) 0; k first) s
            = Raises IndexError s)
  ∧ (l ≠ [] → ∃ i m, first_least key l i m
                     ∧ (first ← py_getitem (py_sort_by_key key l) 0; k first) s
                       = k m s).
Proof.
  split.
  - intros ->. reflexivity.
  - intros Hne. destruct (py_sort_by_key_head key l Hne) as (i & m & rest & Hsort & Hm).
    exists i, m. split; [done|]. rewrite Hsort. reflexivity.
Qed.

(** X9.  [FirstMoveLidraughts.search] leaves the state as it is and
    returns the legal move whose lidraughts notation is least, the first in
    the order of [legal_moves] among those that share it; with no legal
    move it raises [IndexError]. *)
Theorem FirstMoveLidraughts_search_first_least (board : ref) (v : Game)
    (s : State) :
  objects s !! board = Some v ->
  ((legal_moves v).1 = [] →
     FirstMoveLidraughts.search board s = Raises IndexError s)
  ∧ ((legal_moves v).1 ≠ [] →
     ∃ i m,
       first_least (fun m => li_one_move (mkMoveObject m None None))
                   (legal_moves v).1 i m
       ∧ FirstMoveLidraughts.search board s = Returns (mkPlayResult m None []) s).
Proof.
  intros Hv. unfold FirstMoveLidraughts.search.
  rewrite run_bind, (run_read _ _ v) by done.
  destruct (first_of_sorted li_one_move
              ((fun m => mkMoveObject m None None) <$> (legal_moves v).1) s
              (fun first => ret (mkPlayResult (board_move first) None [])))
    as [Hnone Hsome].
  split.
  - intros Hmoves. apply Hnone. by rewrite Hmoves.
  - intros Hmoves. destruct Hsome as (i & obj & Hleast & Hrun).
    { by destruct (legal_moves v).1. }
    apply first_least_fmap in Hleast as (m & -> & Hleast).
    exists i, m. split; [done|]. exact Hrun.
Qed.

(** X10.  [FirstMoveHub.search] leaves the state as it is and returns the
    legal move whose hub notation, among the moves and captures of the
    board, is least, the first in the order of [legal_moves] among those
    that share it; with no legal move it raises [IndexError]. *)
Theorem FirstMoveHub_search_first_least (board : ref) (v : Game) (s : State) :
  objects s !! board = Some v ->
  ((legal_moves v).1 = [] → FirstMoveHub.search board s = Raises IndexError s)
  ∧ ((legal_moves v).1 ≠ [] →
     ∃ i m,
       first_least
         (fun m => hub_move (mkMoveObject m (Some (legal_moves v).1)
                                            (Some (legal_moves v).2)))
         (legal_moves v).1 i m
       ∧ FirstMoveHub.search board s = Returns (mkPlayResult m None []) s).
Proof.
  intros Hv. unfold FirstMoveHub.search.
  rewrite run_bind, (run_read _ _ v) by done.
  destruct (legal_moves v) as [moves captures]. cbn [fst snd].
  destruct (first_of_sorted hub_move
              ((fun m => mkMoveObject m (Some moves) (Some captures)) <$> moves) s
              (fun first => ret (mkPlayResult (board_move first) None [])))
    as [Hnone Hsome].
  split.
  - intros Hmoves. apply Hnone. by rewrite Hmoves.
  - intros Hmoves. destruct Hsome as (i & obj & Hleast & Hrun).
    { by destruct moves. }
    apply first_least_fmap in Hleast as (m & -> & Hleast).
    exists i, m. split; [done|]. exact Hrun.
Qed.

(** X11.  [FirstMovePDN.search] leaves the state as it is and returns the
    legal move whose PDN notation, among the moves and captures of the
    board, is least, the first in the order of [legal_moves] among those
    that share it; with no legal move it raises [IndexError]. *)
Theorem FirstMovePDN_search_first_least (board : ref) (v : Game) (s : State) :
  objects s !! board = Some v ->
  ((legal_moves v).1 = [] → FirstMovePDN.search board s = Raises IndexError s)
  ∧ ((legal_moves v).1 ≠ [] →
     ∃ i m,
       first_least
         (fun m => pdn_move (mkMoveObject m (Some (legal_moves v).1)
                                            (Some (legal_moves v).2)))
         (legal_moves v).1 i m
       ∧ FirstMovePDN.search board s = Returns (mkPlayResult m None []) s).
Proof.
  intros Hv. unfold FirstMovePDN.search.
  rewrite run_bind, (run_read _ _ v) by done.
  destruct (legal_moves v) as [moves captures]. cbn [fst snd].
  destruct (first_of_sorted pdn_move
              ((fun m => mkMoveObject m (Some moves) (Some captures)) <$> moves) s
              (fun first => ret (mkPlayResult (board_move first) None [])))
    as [Hnone Hsome].
  split.
  - intros Hmoves. apply Hnone. by rewrite Hmoves.
  - intros Hmoves. destruct Hsome as (i & obj & Hleast & Hrun).
    { by destruct moves. }
    apply first_least_fmap in Hleast as (m & -> & Hleast).
    exists i, m. split; [done|]. exact Hrun.
Qed.

(** X12.  [RandomMove.search] leaves the state as it is and returns the
    legal move at the index the generator drew, which is one of the legal
    moves of the board; with no legal move it raises [IndexError]. *)
Theorem RandomMove_search_legal (draw : nat) (board : ref) (v : Game) (s : State) :
  objects s !! board = Some v ->
  ((legal_moves v).1 = [] → RandomMove.search draw board s = Raises IndexError s)
  ∧ ((draw < length (legal_moves v).1)%nat →
     ∃ m, (legal_moves v).1 !! draw = Some m
          ∧ m ∈ (legal_moves v).1
          ∧ RandomMove.search draw board s = Returns (mkPlayResult m None []) s).
Proof.
  intros Hv. unfold RandomMove.search.
  rewrite run_bind, (run_read _ _ v) by done. split.
  - intros ->. reflexivity.
  - intros Hdraw. destruct (lookup_lt_is_Some_2 _ _ Hdraw) as [m Hm].
    exists m. split; [done|]. split; [by eapply list_elem_of_lookup_2|].
    destruct (legal_moves v).1 as [|m0 rest]; [done|].
    rewrite run_bind. unfold random_choice, py_getitem. rewrite Hm. reflexivity.
Qed.

End Strategies.

Section Diagnostics.
Context `{Lib : Collaborators}.
Implicit Types (game : ref) (depth : Z) (fuel : nat) (v : Game).

(** ** The counter and the output are diagnostics *)

Lemma same_outcome_bind {A B} (m : M A) (k : A -> M B) (s1 s2 : State) :
  same_outcome (m s1) (m s2) ->
  (∀ a (s1' s2' : State), same_position_data s1' s2' →
     same_outcome (k a s1') (k a s2')) ->
  same_outcome ((m ≫= k) s1) ((m ≫= k) s2).
Proof.
  intros Hm Hk. rewrite !run_bind.
  destruct (m s1), (m s2); try done. destruct Hm as [-> Hrel]. by apply Hk.
Qed.

Lemma same_ret {A} (a : A) (s1 s2 : State) :
  same_position_data s1 s2 -> same_outcome (ret a s1) (ret a s2).
Proof. by split. Qed.

Lemma same_read {A} (f : Game -> A) game (s1 s2 : State) :
  same_position_data s1 s2 -> same_outcome (read f game s1) (read f game s2).
Proof.
  intros [Ht Ho]. unfold read. rewrite Ho.
  destruct (objects s2 !! game); [by split|done].
Qed.

Lemma same_get_table (s1 s2 : State) :
  same_position_data s1 s2 -> same_outcome (get_table s1) (get_table s2).
Proof. intros [Ht Ho]. by split. Qed.

Lemma same_table_store (key score : Z) (s1 s2 : State) :
  same_position_data s1 s2 ->
  same_outcome (table_store key score s1) (table_store key score s2).
Proof.
  intros [Ht Ho]. split; [done|]. split; simpl; [by rewrite Ht|done].
Qed.

Lemma same_evaluate_position (position : gmap Z Piece) pc (s1 s2 : State) :
  same_position_data s1 s2 ->
  same_outcome (evaluate_position position pc s1) (evaluate_position position pc s2).
Proof.
  intros [Ht Ho]. rewrite !run_evaluate_position. by split.
Qed.

Lemma same_copy_push {B} game (m : Move) (k : ref -> M B) (s1 s2 : State) :
  same_position_data s1 s2 ->
  (∀ game' (s1' s2' : State), same_position_data s1' s2' →
     same_outcome (k game' s1') (k game' s2')) ->
  same_outcome
    ((copied ← game_copy game; new_game ← game_push copied m; k new_game) s1)
    ((copied ← game_copy game; new_game ← game_push copied m; k new_game) s2).
Proof.
  intros [Ht Ho] Hk.
  destruct (objects s1 !! game) as [v|] eqn:Hv.
  - rewrite !(run_copy_push _ v) by congruence. rewrite Ho. apply Hk.
    split; simpl; [done|by rewrite Ho].
  - rewrite !run_bind. unfold game_copy. rewrite <- Ho, Hv. done.
Qed.

Lemma same_py_max (l : list Z) (s1 s2 : State) :
  same_position_data s1 s2 -> same_outcome (py_max l s1) (py_max l s2).
Proof. intros Hs. destruct l; by split. Qed.

Lemma same_py_min (l : list Z) (s1 s2 : State) :
  same_position_data s1 s2 -> same_outcome (py_min l s1) (py_min l s2).
Proof. intros Hs. destruct l; by split. Qed.

Lemma same_for_moves (body : Move -> M Z)
  (Hbody : ∀ m (s1 s2 : State), same_position_data s1 s2 →
             same_outcome (body m s1) (body m s2)) :
  ∀ moves acc (s1 s2 : State),
    same_position_data s1 s2 ->
    same_outcome (for_moves body moves acc s1) (for_moves body moves acc s2).
Proof.
  induction moves as [|m rest IH]; intros acc s1 s2 Hs; cbn [for_moves].
  - by apply same_ret.
  - apply same_outcome_bind; [by apply Hbody|].
    intros score s1' s2' Hs'. by apply IH.
Qed.

Lemma recursive_search_same fuel : ∀ depth game pc (s1 s2 : State),
  same_position_data s1 s2 ->
  same_outcome (recursive_search fuel game depth pc s1)
               (recursive_search fuel game depth pc s2).
Proof.
  induction fuel as [|fuel IH]; intros depth game pc s1 s2 Hs; [done|].
  cbn [recursive_search].
  apply same_outcome_bind; [by apply same_read|]. intros fen s1a s2a Ha.
  apply same_outcome_bind; [by apply same_get_table|]. intros table s1b s2b Hb.
  destruct (table !! CityHash64 fen); [by apply same_ret|].
  destruct (decide (depth = 0)).
  - apply same_outcome_bind; [by apply same_read|]. intros position s1c s2c Hc.
    apply same_outcome_bind; [by apply same_evaluate_position|].
    intros score s1d s2d Hd.
    apply same_outcome_bind; [by apply same_table_store|].
    intros _ s1e s2e He. by apply same_ret.
  - apply same_outcome_bind; [by apply same_read|]. intros moves s1c s2c Hc.
    destruct moves as [|m rest].
    + apply same_outcome_bind; [by apply same_read|]. intros won s1d s2d Hd.
      destruct won; by apply same_ret.
    + apply same_outcome_bind.
      { apply same_for_moves; [|done]. intros m' s1d s2d Hd.
        apply same_copy_push; [done|]. intros game' s1e s2e He. by apply IH. }
      intros scores s1d s2d Hd.
      apply same_outcome_bind; [by apply same_read|]. intros turn s1e s2e He.
      destruct (decide (turn = pc)).
      * apply same_outcome_bind; [by apply same_py_max|]. intros r s1f s2f Hf.
        apply same_outcome_bind; [by apply same_table_store|].
        intros _ s1g s2g Hg. by apply same_ret.
      * apply same_outcome_bind; [by apply same_py_min|]. intros r s1f s2f Hf.
        apply same_outcome_bind; [by apply same_table_store|].
        intros _ s1g s2g Hg. by apply same_ret.
Qed.

Lemma search_same fuel game (s1 s2 : State) :
  same_position_data s1 s2 ->
  same_outcome (search fuel game s1) (search fuel game s2).
Proof.
  intros Hs. unfold search, timing_decorator.
  apply same_outcome_bind; [|intros result s1' s2' Hs'; by split].
  apply same_outcome_bind; [by apply same_read|]. intros player_color s1a s2a Ha.
  apply same_outcome_bind; [by apply same_read|]. intros moves s1b s2b Hb.
  apply same_outcome_bind.
  { apply same_for_moves; [|done]. intros m' s1c s2c Hc.
    apply same_copy_push; [done|]. intros game' s1d s2d Hd.
    by apply recursive_search_same. }
  intros score_list s1c s2c Hc.
  apply same_outcome_bind; [by apply same_py_max|]. intros best s1d s2d Hd.
  apply same_outcome_bind.
  { unfold py_index. destruct (first_index best score_list); by split. }
  intros best_move_index s1e s2e He.
  apply same_outcome_bind.
  { unfold py_getitem. destruct (moves !! best_move_index); by split. }
  intros best_move s1f s2f Hf.
  apply same_outcome_bind; [by apply same_py_max|]. intros shown s1g s2g [Ht Ho].
  rewrite !run_bind. cbn. split; [done|]. by split.
Qed.

(** X13.  The counter and the printed output are diagnostics only: from
    two states that hold the same table and the same objects,
    [recursive_search] returns the same score and leaves the same table
    and objects, and [search] returns the same move (or raises the same
    exception), whatever the counters and the outputs of the two states. *)
Theorem search_ignores_diagnostics fuel game depth pc (s1 s2 : State) :
  same_position_data s1 s2 ->
  same_outcome (recursive_search fuel game depth pc s1)
               (recursive_search fuel game depth pc s2)
  ∧ same_outcome (search fuel game s1) (search fuel game s2).
Proof.
  intros Hs. split; [by apply recursive_search_same|by apply search_same].
Qed.

End Diagnostics.

Section Horizon.
Context `{Lib : Collaborators}.
Implicit Types (game : ref) (depth : Z) (fuel : nat) (v : Game).

(** ** How far a search looks, and where its scores come from *)

Lemma within_succ n v v' : within n v v' -> within (S n) v v'.
Proof.
  induction 1 as [n v|n v m v' Hm _ IH]; [constructor|].
  by apply (within_move _ _ m).
Qed.

Lemma created_refl (ok : Game -> Prop) (s : State) : created ok s s.
Proof. exists []. by rewrite app_nil_r. Qed.

Lemma created_objects_kept (ok : Game -> Prop) (s s' : State) :
  created ok s s' -> objects_kept s s'.
Proof. intros (new & Hnew & _). unfold objects_kept. rewrite Hnew. by apply prefix_app_r. Qed.

Lemma stored_scores_store (P : Z -> Prop) (s : State) (key score : Z) :
  stored_scores P s -> P score ->
  stored_scores P (with_table (<[key := score]> (transposition_table s)) s).
Proof.
  intros Hs Hscore k x. cbn [transposition_table with_table].
  rewrite lookup_insert. case_decide; [by intros [= <-]|apply Hs].
Qed.

Section Scores.
Variable P : Z -> Prop.
Variable pc : Player.
Hypothesis P_won : P 100.
Hypothesis P_lost : P (-100).

(** The loop over the moves of [v], when the search of each successor
    stays within [n] moves of it. *)
Lemma child_scores_horizon fuel depth (n : nat) v
  (Hrec : ∀ m game' (s1 : State),
     m ∈ (legal_moves v).1 -> objects s1 !! game' = Some (push v m) ->
     ∃ score s2, recursive_search fuel game' depth pc s1 = Returns score s2
                 ∧ created (within n (push v m)) s1 s2
                 ∧ (stored_scores P s1 → P score ∧ stored_scores P s2)) :
  ∀ moves game (s : State),
    (∀ m, m ∈ moves → m ∈ (legal_moves v).1) ->
    objects s !! game = Some v ->
    ∃ scores s', child_scores fuel game depth pc moves s scores s'
                 ∧ created (within (S n) v) s s'
                 ∧ (stored_scores P s → Forall P scores ∧ stored_scores P s').
Proof.
  induction moves as [|m rest IH]; intros game s Hsub Hv.
  - exists [], s. split; [constructor|]. split; [apply created_refl|done].
  - assert (Hm : m ∈ (legal_moves v).1) by (apply Hsub, list_elem_of_here).
    destruct (Hrec m (length (objects s)) (with_successor v m s) Hm)
      as (score & s1 & Hrun & (new1 & Hnew1 & Hok1) & HP1).
    { unfold with_successor. cbn. by apply list_lookup_middle. }
    unfold with_successor in Hnew1. cbn [objects with_objects] in Hnew1.
    destruct (IH game s1) as (scores & s2 & Hcs & (new2 & Hnew2 & Hok2) & HP2).
    { intros m' Hm'. apply Hsub. by apply list_elem_of_further. }
    { rewrite Hnew1, <- app_assoc. by apply lookup_app_l_Some. }
    exists (score :: scores), s2. split; [by econstructor|]. split.
    + exists ((push v m :: new1) ++ new2). split.
      * rewrite Hnew2, Hnew1, <- !app_assoc. reflexivity.
      * apply Forall_app. split; [|done]. constructor.
        -- apply (within_move _ _ m); [done|constructor].
        -- eapply Forall_impl; [exact Hok1|]. intros x Hx.
           by apply (within_move _ _ m).
    + intros Hs. destruct HP1 as [Hscore Hs1]; [done|].
      destruct (HP2 Hs1) as [Hscores Hs2]. split; [by constructor|done].
Qed.

Lemma recursive_search_horizon fuel : ∀ depth game v (s : State),
  0 <= depth < Z.of_nat fuel ->
  objects s !! game = Some v ->
  (∀ v', within (Z.to_nat depth) v v' → P (material pc (position_pieces v'))) ->
  ∃ score s', recursive_search fuel game depth pc s = Returns score s'
              ∧ created (within (Z.to_nat depth) v) s s'
              ∧ (stored_scores P s → P score ∧ stored_scores P s').
Proof.
  induction fuel as [|fuel IH]; intros depth game v s Hd Hv Heval; [lia|].
  destruct (transposition_table s !! key_of v) as [cached|] eqn:Htable.
  { exists cached, s. rewrite (recursive_search_hit _ _ _ _ v cached) by done.
    split; [done|]. split; [apply created_refl|]. intros Hs. split; [|done].
    by apply (Hs (key_of v)). }
  destruct (decide (depth = 0)) as [->|Hnz].
  { rewrite (recursive_search_leaf _ _ _ v) by done.
    rewrite run_bind, run_evaluate_position.
    destruct (evaluate_position_score (position_pieces v) pc s) as [Hrun _].
    rewrite run_evaluate_position in Hrun. injection Hrun as Hscore.
    rewrite Hscore.
    eexists _, _. split; [reflexivity|]. split.
    - exists []. cbn. by rewrite app_nil_r.
    - assert (HP : P (material pc (position_pieces v))) by (apply Heval; constructor).
      intros Hs. split; [done|]. by apply stored_scores_store. }
  destruct (legal_moves v).1 as [|m rest] eqn:Hmoves.
  { rewrite (recursive_search_no_moves _ _ _ _ v) by done.
    eexists _, _. split; [reflexivity|]. split; [apply created_refl|].
    intros Hs. split; [|done]. by destruct (has_player_won v pc). }
  assert (Hn : Z.to_nat depth = S (Z.to_nat (depth - 1))) by lia.
  destruct (child_scores_horizon fuel (depth - 1) (Z.to_nat (depth - 1)) v)
    with (moves := (legal_moves v).1) (game := game) (s := s)
    as (scores & s1 & Hcs & Hcreated & HP); [|done|done|].
  { intros m' game' s1 Hm' Hgame'. apply IH; [lia|done|].
    intros v' Hv'. apply Heval. rewrite Hn. by apply (within_move _ _ m'). }
  assert (Hne : scores ≠ []).
  { apply child_scores_length in Hcs. rewrite Hmoves in Hcs. by destruct scores. }
  rewrite (recursive_search_children _ _ _ _ v s s1 scores); try done;
    [|by rewrite Hmoves|by apply (created_objects_kept (within (S (Z.to_nat (depth - 1))) v))].
  rewrite Hn.
  destruct (decide (player_turn v = pc)) as [_|_].
  - destruct (py_max_returns scores s1 Hne) as (r & Hr & [Hin _]).
    rewrite run_bind, Hr. eexists _, _. split; [reflexivity|].
    split; [exact Hcreated|]. intros Hs. destruct (HP Hs) as [Hscores Hs1].
    assert (P r) by (by eapply (proj1 (Forall_forall _ _))).
    split; [done|]. by apply stored_scores_store.
  - destruct (py_min_returns scores s1 Hne) as (r & Hr & [Hin _]).
    rewrite run_bind, Hr. eexists _, _. split; [reflexivity|].
    split; [exact Hcreated|]. intros Hs. destruct (HP Hs) as [Hscores Hs1].
    assert (P r) by (by eapply (proj1 (Forall_forall _ _))).
    split; [done|]. by apply stored_scores_store.
Qed.

End Scores.

Lemma child_scores_functional fuel game depth pc moves (s s1 s2 : State)
    scores1 scores2 :
  child_scores fuel game depth pc moves s scores1 s1 ->
  child_scores fuel game depth pc moves s scores2 s2 ->
  scores1 = scores2 ∧ s1 = s2.
Proof.
  intros H1 H2.
  pose proof (for_moves_child_scores _ _ _ _ _ _ _ _ H1 []) as E1.
  pose proof (for_moves_child_scores _ _ _ _ _ _ _ _ H2 []) as E2.
  rewrite E1 in E2. simpl in E2. by injection E2.
Qed.

(** X14.  A search looks no further than its depth: the game objects that
    [recursive_search] creates at a depth that is not negative hold values
    at most [depth] legal moves away from the game it was given, and those
    that [search] creates are at most four legal moves away.  The objects
    that existed before are as they were. *)
Theorem search_horizon fuel game depth pc v (s : State) :
  objects s !! game = Some v ->
  (0 <= depth < Z.of_nat fuel →
     ∃ score s', recursive_search fuel game depth pc s = Returns score s'
                 ∧ created (within (Z.to_nat depth) v) s s')
  ∧ ((3 < fuel)%nat → (legal_moves v).1 ≠ [] →
     ∃ result s', search fuel game s = Returns result s'
                  ∧ created (within 4 v) s s').
Proof.
  intros Hv. split.
  - intros Hd.
    destruct (recursive_search_horizon (fun _ => True) pc I I fuel depth game v s)
      as (score & s' & Hrun & Hcreated & _); [done|done|done|].
    by exists score, s'.
  - intros Hfuel Hmoves.
    destruct (search_some_moves fuel game v s Hv Hmoves Hfuel)
      as (scores & s1 & i & best_move & best & Hcs & _ & _ & _ & _ & _ & Hrun).
    destruct (child_scores_horizon (fun _ => True) (player_turn v) fuel 3 3 v)
      with (moves := (legal_moves v).1) (game := game) (s := s)
      as (scores' & s1' & Hcs' & Hcreated & _); [|done|done|].
    { intros m game' s2 Hm Hgame'.
      apply (recursive_search_horizon (fun _ => True) (player_turn v) I I
               fuel 3 game' (push v m) s2); [lia|done|done]. }
    destruct (child_scores_functional _ _ _ _ _ _ _ _ _ _ Hcs Hcs') as [_ <-].
    eexists _, _. split; [exact Hrun|]. exact Hcreated.
Qed.

(** X15.  A search invents no score.  Let [P] hold of 100, of -100, of the
    evaluation of every position at most [depth] legal moves away from the
    game, and of every score stored in the table: then [P] holds of the
    score [recursive_search] returns and of every score stored when it
    returns.  So scores stay in a range that contains 100, -100, the stored
    scores and those evaluations. *)
Theorem recursive_search_invents_no_score (P : Z -> Prop) fuel game depth pc v
    (s : State) :
  P 100 -> P (-100) ->
  0 <= depth < Z.of_nat fuel ->
  objects s !! game = Some v ->
  (∀ v', within (Z.to_nat depth) v v' → P (material pc (position_pieces v'))) ->
  stored_scores P s ->
  ∃ score s', recursive_search fuel game depth pc s = Returns score s'
              ∧ P score ∧ stored_scores P s'.
Proof.
  intros Hwon Hlost Hd Hv Heval Hs.
  destruct (recursive_search_horizon P pc Hwon Hlost fuel depth game v s Hd Hv Heval)
    as (score & s' & Hrun & _ & HP).
  exists score, s'. split; [exact Hrun|]. by apply HP.
Qed.

End Horizon.

(** * The further properties on the pile game *)

Section PileGameMore.
Import Pile.
#[local] Existing Instance pile_game.
#[local] Existing Instance pile_notation.

Lemma evaluate_position_one_sided_witness :
  ∃ score,
    evaluate_position {[ 7 := mkPiece White true ]} White (start (pile_of 5 White))
    = Returns score (counted (start (pile_of 5 White)))
    ∧ (White = White →
       0 < Z.of_nat (size ({[ 7 := mkPiece White true ]} : gmap Z Piece)) <= score)
    ∧ (White ≠ White →
       score <= - Z.of_nat (size ({[ 7 := mkPiece White true ]} : gmap Z Piece)) < 0).
Proof.
  apply (evaluate_position_one_sided {[ 7 := mkPiece White true ]} White White).
  - intros c p Hp. apply lookup_singleton_Some in Hp as [_ <-]. reflexivity.
  - apply map_non_empty_singleton.
Defined.

Lemma evaluate_position_ignores_fields_witness :
  ∃ score,
    evaluate_position {[ 7 := mkPiece White true ]} Black (start (pile_of 5 White))
    = Returns score (counted (start (pile_of 5 White)))
    ∧ evaluate_position (<[ 12 := mkPiece White true ]>
                           (delete 7 {[ 7 := mkPiece White true ]}))
        Black (start (pile_of 5 White))
      = Returns score (counted (start (pile_of 5 White))).
Proof.
  apply (evaluate_position_ignores_fields {[ 7 := mkPiece White true ]} Black 7 12).
  - reflexivity.
  - reflexivity.
Defined.


Lemma recursive_search_twice_witness :
  ∃ s', recursive_search 4 0%nat 3 White (start (pile_of 5 White)) = Returns 4 s'
        ∧ recursive_search 4 0%nat 3 White s' = Returns 4 s'.
Proof.
  pose (s := match recursive_search 4 0%nat 3 White (start (pile_of 5 White)) with
             | Returns _ s' => s'
             | _ => start (pile_of 5 White)
             end).
  assert (Hdeep : recursive_search 4 0%nat 3 White (start (pile_of 5 White))
                  = Returns 4 s) by (vm_compute; reflexivity).
  clearbody s. exists s. split; [exact Hdeep|].
  apply (recursive_search_twice 4 0%nat 3 White (pile_of 5 White)
           (start (pile_of 5 White)) s 4); [reflexivity|exact Hdeep].
Defined.

Lemma recursive_search_reuses_score_witness :
  ∃ s', recursive_search 4 0%nat 3 White (start (pile_of 5 White)) = Returns 4 s'
        ∧ recursive_search 1 0%nat 0 Black s' = Returns 4 s'.
Proof.
  pose (s := match recursive_search 4 0%nat 3 White (start (pile_of 5 White)) with
             | Returns _ s' => s'
             | _ => start (pile_of 5 White)
             end).
  assert (Hdeep : recursive_search 4 0%nat 3 White (start (pile_of 5 White))
                  = Returns 4 s) by (vm_compute; reflexivity).
  assert (Hlive : objects s !! 0%nat = Some (pile_of 5 White))
    by (vm_compute; reflexivity).
  clearbody s. exists s. split; [exact Hdeep|].
  apply (recursive_search_reuses_score 4 0%nat 3 White (pile_of 5 White)
           (start (pile_of 5 White)) s 4) with (v' := pile_of 5 White).
  - reflexivity.
  - right. vm_compute. discriminate.
  - exact Hdeep.
  - exact Hlive.
  - reflexivity.
Defined.

Lemma search_counts_at_most_stored_witness :
  ∃ result s' best_move best positions stored,
    search 4 0%nat (start (pile_of 5 White)) = Returns result s'
    ∧ stdout s' = stdout (start (pile_of 5 White))
                  ++ [BestMoveLine best_move best positions;
                      TableSizeLine stored; TimingLine]
    ∧ 0 <= positions <= Z.of_nat stored.
Proof.
  apply (search_counts_at_most_stored 4 0%nat (pile_of 5 White)).
  - reflexivity.
  - vm_compute. discriminate.
  - lia.
  - split; reflexivity.
Defined.

Lemma FirstMoveLidraughts_search_first_least_witness :
  ∃ i m,
    first_least (fun m => li_one_move (mkMoveObject m None None))
                (legal_moves (pile_of 5 White)).1 i m
    ∧ FirstMoveLidraughts.search 0%nat (start (pile_of 5 White))
      = Returns (mkPlayResult m None []) (start (pile_of 5 White)).
Proof.
  refine (proj2 (FirstMoveLidraughts_search_first_least 0%nat (pile_of 5 White)
                   (start (pile_of 5 White)) _) _).
  - reflexivity.
  - vm_compute. discriminate.
Defined.

Lemma FirstMoveHub_search_first_least_witness :
  ∃ i m,
    first_least
      (fun m => hub_move (mkMoveObject m (Some (legal_moves (pile_of 5 White)).1)
                                         (Some (legal_moves (pile_of 5 White)).2)))
      (legal_moves (pile_of 5 White)).1 i m
    ∧ FirstMoveHub.search 0%nat (start (pile_of 5 White))
      = Returns (mkPlayResult m None []) (start (pile_of 5 White)).
Proof.
  refine (proj2 (FirstMoveHub_search_first_least 0%nat (pile_of 5 White)
                   (start (pile_of 5 White)) _) _).
  - reflexivity.
  - vm_compute. discriminate.
Defined.

Lemma FirstMovePDN_search_first_least_witness :
  ∃ i m,
    first_least
      (fun m => pdn_move (mkMoveObject m (Some (legal_moves (pile_of 5 White)).1)
                                         (Some (legal_moves (pile_of 5 White)).2)))
      (legal_moves (pile_of 5 White)).1 i m
    ∧ FirstMovePDN.search 0%nat (start (pile_of 5 White))
      = Returns (mkPlayResult m None []) (start (pile_of 5 White)).
Proof.
  refine (proj2 (FirstMovePDN_search_first_least 0%nat (pile_of 5 White)
                   (start (pile_of 5 White)) _) _).
  - reflexivity.
  - vm_compute. discriminate.
Defined.

(** The notations order the two moves of the pile of five differently. *)
Example first_moves_of_five :
  FirstMoveLidraughts.search 0%nat (start (pile_of 5 White))
  = Returns (mkPlayResult 2%nat None []) (start (pile_of 5 White))
  ∧ FirstMoveHub.search 0%nat (start (pile_of 5 White))
    = Returns (mkPlayResult 1%nat None []) (start (pile_of 5 White)).
Proof. split; reflexivity. Qed.

Lemma RandomMove_search_legal_witness :
  ∃ m, (legal_moves (pile_of 5 White)).1 !! 1%nat = Some m
       ∧ m ∈ (legal_moves (pile_of 5 White)).1
       ∧ RandomMove.search 1 0%nat (start (pile_of 5 White))
         = Returns (mkPlayResult m None []) (start (pile_of 5 White)).
Proof.
  refine (proj2 (RandomMove_search_legal 1 0%nat (pile_of 5 White)
                   (start (pile_of 5 White)) _) _).
  - reflexivity.
  - vm_compute. lia.
Defined.

Lemma search_ignores_diagnostics_witness :
  same_outcome (recursive_search 4 0%nat 3 White (start (pile_of 5 White)))
               (recursive_search 4 0%nat 3 White
                  (mkState 9 ∅ [pile_of 5 White] [TimingLine]))
  ∧ same_outcome (search 4 0%nat (start (pile_of 5 White)))
                 (search 4 0%nat (mkState 9 ∅ [pile_of 5 White] [TimingLine])).
Proof.
  apply (search_ignores_diagnostics 4 0%nat 3 White).
  split; reflexivity.
Defined.

Lemma search_horizon_witness :
  (∃ score s', recursive_search 4 0%nat 3 White (start (pile_of 5 White))
               = Returns score s'
               ∧ created (within (Z.to_nat 3) (pile_of 5 White))
                   (start (pile_of 5 White)) s')
  ∧ (∃ result s', search 4 0%nat (start (pile_of 5 White)) = Returns result s'
                  ∧ created (within 4 (pile_of 5 White))
                      (start (pile_of 5 White)) s').
Proof.
  destruct (search_horizon 4 0%nat 3 White (pile_of 5 White)
              (start (pile_of 5 White))) as [Hrec Hsearch]; [reflexivity|].
  split; [apply Hrec; lia|apply Hsearch; [lia|vm_compute; discriminate]].
Defined.

Lemma recursive_search_invents_no_score_witness :
  ∃ score s', recursive_search 2 0%nat 1 White (start (pile_of 5 White))
              = Returns score s'
              ∧ (-100 <= score <= 100)
              ∧ stored_scores (fun x => -100 <= x <= 100) s'.
Proof.
  apply (recursive_search_invents_no_score (fun x => -100 <= x <= 100)
           2 0%nat 1 White (pile_of 5 White)).
  - lia.
  - lia.
  - lia.
  - reflexivity.
  - intros v' Hv'. inversion Hv' as [|n v m v'' Hm Hnext]; subst.
    + vm_compute. split; discriminate.
    + inversion Hnext; subst.
      apply elem_of_cons in Hm as [->|Hm];
        [|apply list_elem_of_singleton in Hm as ->];
        vm_compute; split; discriminate.
  - intros key score Hscore. cbn [transposition_table start] in Hscore.
    by rewrite lookup_empty in Hscore.
Defined.

End PileGameMore.
